(** * BankSim3000: a discrete-event bank-teller simulation

    A shallow embedding of [main.cpp] and the verification of its
    event loop: work conservation, event ordering, termination, reset
    between runs and the reference scenario. *)

From stdpp Require Import base list numbers strings pretty sorting.
From Stdlib Require Import ZifyNat.

Open Scope Z_scope.

(** ** The C++ [int] type

    [Time] is [int].  Values are kept as [Z]; every addition and
    subtraction the program performs is reduced to the 32-bit
    two's-complement range, which is what the compiled program computes
    (the language itself leaves signed overflow undefined). *)

Module Int.
Definition INT_MIN : Z := -2147483648.
Definition INT_MAX : Z := 2147483647.

Definition in_range (z : Z) : Prop := INT_MIN <= z <= INT_MAX.

Definition wrap (z : Z) : Z := (z + 2147483648) `mod` 4294967296 - 2147483648.

Definition add (a b : Z) : Z := wrap (a + b).
Definition sub (a b : Z) : Z := wrap (a - b).
End Int.

Definition MIN_TELLERS : nat := 1.
Definition MAX_TELLERS : nat := 5.

(** Integer time units. *)
Abbreviation Time := Z.

(** Teller state is tracked in a vector, indexed by [size_t]. *)
Abbreviation TellerIndex := nat.

(** ** Events *)

Record ArrivalEvent : Type := mkArrivalEvent {
  arrivalTime : Time;
  transactionTime : Time
}.

Record Customer : Type := mkCustomer {
  arrivalEvent : ArrivalEvent
}.

Record DepartureEvent : Type := mkDepartureEvent {
  departureTime : Time;
  tellerIndex : TellerIndex
}.

(** [std::variant<ArrivalEvent, DepartureEvent>] *)
Inductive Event : Type :=
| Arrival (a : ArrivalEvent)
| Departure (d : DepartureEvent).

Definition get_event_time (e : Event) : Time :=
  match e with
  | Arrival a => arrivalTime a
  | Departure d => departureTime d
  end.

(** The comparison functor of the priority queue: [e1] is ordered below
    [e2] when its time is greater, which makes the queue a min-heap. *)
Definition CompareEvent (e1 e2 : Event) : bool :=
  get_event_time e2 <? get_event_time e1.

(** ** Tellers *)

Record Teller : Type := mkTeller {
  startBusy : option Time;
  elapsedTimeBusy : Time
}.

(** Outcomes other than a normal return. *)
Inductive Error : Type :=
| invalid_argument (what : string)   (* std::invalid_argument *)
| bad_optional_access                (* optional::value() on nullopt *)
| assertion_failure                  (* a failed assert *)
| undefined_behaviour                (* unchecked access out of range *)
| out_of_fuel.                       (* the model's loop bound is used up *)

Module Teller.
Definition new : Teller := {| startBusy := None; elapsedTimeBusy := 0 |}.

Definition isAvailable (t : Teller) : bool :=
  match startBusy t with
  | Some _ => false
  | None => true
  end.

Definition startWork (currentTime : Time) (t : Teller) : Teller :=
  {| startBusy := Some currentTime; elapsedTimeBusy := elapsedTimeBusy t |}.

Definition stopWork (currentTime : Time) (t : Teller) : Error + Teller :=
  match startBusy t with
  | None => inl bad_optional_access
  | Some since =>
      let elapsedTime := Int.sub currentTime since in
      inr {| startBusy := None;
             elapsedTimeBusy := Int.add (elapsedTimeBusy t) elapsedTime |}
  end.

Definition elapsedTimeWorking (t : Teller) : Time := elapsedTimeBusy t.
End Teller.

(** ** Simulation results *)

Module SimulationResults.
(** [*max_element(begin, end)]; dereferencing [end] of an empty vector
    is undefined. *)
Definition maxTellerBusyTime (elapsedTimeBusy : list Time) : Error + Time :=
  match elapsedTimeBusy with
  | [] => inl undefined_behaviour
  | x :: rest => inr (foldl Z.max x rest)
  end.
End SimulationResults.

(** ** The event priority queue

    [std::priority_queue<Event, vector<Event>, CompareEvent>] is library
    code.  The engine is written against its interface; [pq_contents] and
    [pq_wf] are the abstraction function and the representation
    invariant used to state the container's contract. *)

Record PriorityQueue : Type := mkPriorityQueue {
  pq_t : Type;
  pq_new : pq_t;                        (* default constructor *)
  pq_empty : pq_t -> bool;              (* empty() *)
  pq_push : Event -> pq_t -> pq_t;      (* push(e) *)
  pq_top : pq_t -> option Event;        (* top(); None where it is undefined *)
  pq_pop : pq_t -> pq_t;                (* pop() *)
  pq_contents : pq_t -> list Event;
  pq_wf : pq_t -> Prop
}.

(** The contract of the container: it holds a multiset of events, [top]
    is an element that [CompareEvent] orders below no element (an event
    of least time), [pop] removes it, and a queue without elements is the
    default-constructed one. *)
Record PriorityQueueLaws (Q : PriorityQueue) : Prop := mkPriorityQueueLaws {
  pq_new_wf : pq_wf Q (pq_new Q);
  pq_new_contents : pq_contents Q (pq_new Q) = [];
  pq_empty_spec : forall q, pq_wf Q q ->
    (pq_empty Q q = true <-> pq_contents Q q = []);
  pq_empty_new : forall q, pq_wf Q q -> pq_empty Q q = true -> q = pq_new Q;
  pq_push_wf : forall e q, pq_wf Q q -> pq_wf Q (pq_push Q e q);
  pq_push_contents : forall e q, pq_wf Q q ->
    pq_contents Q (pq_push Q e q) ≡ₚ e :: pq_contents Q q;
  pq_top_pop : forall q, pq_wf Q q -> pq_empty Q q = false ->
    exists e, pq_top Q q = Some e
      /\ pq_wf Q (pq_pop Q q)
      /\ pq_contents Q q ≡ₚ e :: pq_contents Q (pq_pop Q q)
      /\ Forall (fun e' => CompareEvent e e' = false) (pq_contents Q q)
}.

(** ** A state-and-exception monad

    Member functions mutate the engine and may throw; whatever was
    mutated before the throw stays mutated. *)

Definition M (St A : Type) : Type := St -> (Error + A) * St.

Global Instance M_ret {St} : MRet (M St) := fun A a s => (inr a, s).

Global Instance M_bind {St} : MBind (M St) := fun A B f m s =>
  match m s with
  | (inl e, s') => (inl e, s')
  | (inr a, s') => f a s'
  end.

Definition throw {St A} (e : Error) : M St A := fun s => (inl e, s).
Definition get {St} : M St St := fun s => (inr s, s).
Definition modify {St} (f : St -> St) : M St unit := fun s => (inr tt, f s).
Definition assert {St} (b : bool) : M St unit :=
  if b then mret tt else throw assertion_failure.
Definition lift {St A} (r : Error + A) : M St A := fun s => (r, s).

(** ** The simulation engine *)

(** A line of customers waiting to be served: [std::queue<Customer>]. *)
Abbreviation BankLine := (list Customer).

(** The arrival events a simulation starts from. *)
Abbreviation SimulationInput := (list ArrivalEvent).

Record BankSim3000 (Q : PriorityQueue) : Type := mkBankSim3000 {
  simulationInput : SimulationInput;
  eventQueue : pq_t Q;
  bankLine : BankLine;
  tellers : list Teller
}.

Arguments mkBankSim3000 {Q} _ _ _ _.
Arguments simulationInput {Q} _.
Arguments eventQueue {Q} _.
Arguments bankLine {Q} _.
Arguments tellers {Q} _.

Section Engine.
Context {Q : PriorityQueue}.

Abbreviation Sim := (BankSim3000 Q).

(** The constructor stores the input; queue, line and tellers are
    default-constructed. *)
Definition new (input : SimulationInput) : Sim :=
  {| simulationInput := input;
     eventQueue := pq_new Q;
     bankLine := [];
     tellers := [] |}.

Definition set_eventQueue (q : pq_t Q) (s : Sim) : Sim :=
  {| simulationInput := simulationInput s; eventQueue := q;
     bankLine := bankLine s; tellers := tellers s |}.

Definition set_bankLine (l : BankLine) (s : Sim) : Sim :=
  {| simulationInput := simulationInput s; eventQueue := eventQueue s;
     bankLine := l; tellers := tellers s |}.

Definition set_tellers (ts : list Teller) (s : Sim) : Sim :=
  {| simulationInput := simulationInput s; eventQueue := eventQueue s;
     bankLine := bankLine s; tellers := ts |}.

(** [tellers.emplace_back()] repeated [tellerCount] times on the
    cleared vector ([reserve] changes the capacity only). *)
Fixpoint emplace_tellers (tellerCount : nat) (ts : list Teller) : list Teller :=
  match tellerCount with
  | O => ts
  | S n => emplace_tellers n (ts ++ [Teller.new])
  end.

Definition resetTellers (tellerCount : nat) : M Sim unit :=
  modify (fun s => set_tellers (emplace_tellers tellerCount []) s).

(** [while (!c.empty()) c.pop();] on the bank line. *)
Fixpoint drainLine (l : BankLine) : BankLine :=
  match l with
  | [] => []
  | _ :: rest => drainLine rest
  end.

Definition clearBankLine : M Sim unit :=
  s ← get;
  assert (bool_decide (bankLine s = []));;
  modify (fun s => set_bankLine (drainLine (bankLine s)) s).

(** [while (!c.empty()) c.pop();] on the event queue; the number of
    elements bounds the number of iterations. *)
Fixpoint drainQueue (fuel : nat) (q : pq_t Q) : pq_t Q :=
  if pq_empty Q q then q
  else match fuel with
       | O => q
       | S fuel' => drainQueue fuel' (pq_pop Q q)
       end.

Definition setupEventQueue : M Sim unit :=
  s ← get;
  assert (pq_empty Q (eventQueue s));;
  modify (fun s =>
    set_eventQueue
      (drainQueue (length (pq_contents Q (eventQueue s))) (eventQueue s)) s);;
  modify (fun s =>
    set_eventQueue
      (foldl (fun q arrival => pq_push Q (Arrival arrival) q)
             (eventQueue s) (simulationInput s)) s).

Definition setupSimulation (tellerCount : nat) : M Sim unit :=
  if (tellerCount <? MIN_TELLERS)%nat then
    throw (invalid_argument ("Teller count must >= " +:+ pretty MIN_TELLERS))
  else if (MAX_TELLERS <? tellerCount)%nat then
    throw (invalid_argument ("Teller count must be <= " +:+ pretty MAX_TELLERS))
  else
    setupEventQueue;;
    resetTellers tellerCount;;
    clearBankLine.

(** [tellers[i].f(...)], an unchecked access. *)
Definition onTeller (i : TellerIndex) (f : Teller -> Error + Teller) : M Sim unit :=
  s ← get;
  match tellers s !! i with
  | None => throw undefined_behaviour
  | Some t =>
      t' ← lift (f t);
      modify (set_tellers (<[i := t']> (tellers s)))
  end.

Definition pushEvent (e : Event) : M Sim unit :=
  modify (fun s => set_eventQueue (pq_push Q e (eventQueue s)) s).

(** The index of the first available teller at or after position [i]. *)
Fixpoint searchFrom (i : nat) (ts : list Teller) : option TellerIndex :=
  match ts with
  | [] => None
  | t :: rest => if Teller.isAvailable t then Some i else searchFrom (S i) rest
  end.

Definition searchAvailableTellers : M Sim (option TellerIndex) :=
  s ← get;
  mret (searchFrom 0 (tellers s)).

Definition processArrival (currentTime : Time) (arrivalEvent : ArrivalEvent)
  : M Sim unit :=
  teller ← searchAvailableTellers;
  match teller with
  | Some tellerIndex =>
      onTeller tellerIndex (fun t => inr (Teller.startWork currentTime t));;
      let departure :=
        {| departureTime := Int.add currentTime (transactionTime arrivalEvent);
           tellerIndex := tellerIndex |} in
      pushEvent (Departure departure)
  | None =>
      modify (fun s =>
        set_bankLine (bankLine s ++ [{| arrivalEvent := arrivalEvent |}]) s)
  end.

Definition processDeparture (currentTime : Time) (departureEvent : DepartureEvent)
  : M Sim unit :=
  let tellerIndex := tellerIndex departureEvent in
  s ← get;
  match bankLine s with
  | [] => onTeller tellerIndex (Teller.stopWork currentTime)
  | nextCustomer :: rest =>
      modify (set_bankLine rest);;
      onTeller tellerIndex (Teller.stopWork currentTime);;
      onTeller tellerIndex (fun t => inr (Teller.startWork currentTime t));;
      let newDeparture :=
        {| departureTime :=
             Int.add currentTime (transactionTime (arrivalEvent nextCustomer));
           tellerIndex := tellerIndex |} in
      pushEvent (Departure newDeparture)
  end.

Definition processEvent (currentTime : Time) (e : Event) : M Sim unit :=
  match e with
  | Arrival arrivalEvent => processArrival currentTime arrivalEvent
  | Departure departureEvent => processDeparture currentTime departureEvent
  end.

(** [Event e = eventQueue.top(); eventQueue.pop();] *)
Definition removeEvent : M Sim Event :=
  s ← get;
  match pq_top Q (eventQueue s) with
  | None => throw undefined_behaviour
  | Some e =>
      modify (set_eventQueue (pq_pop Q (eventQueue s)));;
      mret e
  end.

(** The event loop; [fuel] bounds the number of iterations. *)
Fixpoint runSimulation (fuel : nat) : M Sim unit :=
  fun s =>
    if pq_empty Q (eventQueue s) then (inr tt, s)
    else match fuel with
         | O => (inl out_of_fuel, s)
         | S fuel' =>
             (e ← removeEvent;
              processEvent (get_event_time e) e;;
              runSimulation fuel') s
         end.

(** The same loop, also recording the events in the order they are
    removed from the queue, each with the teller pool it is processed on. *)
Fixpoint runSimulationLog (fuel : nat) : M Sim (list (Event * list Teller)) :=
  fun s =>
    if pq_empty Q (eventQueue s) then (inr [], s)
    else match fuel with
         | O => (inl out_of_fuel, s)
         | S fuel' =>
             (e ← removeEvent;
              s1 ← get;
              processEvent (get_event_time e) e;;
              log ← runSimulationLog fuel';
              mret ((e, tellers s1) :: log)) s
         end.

Definition gatherResults : M Sim (list Time) :=
  s ← get;
  mret (map Teller.elapsedTimeWorking (tellers s)).

Definition maxTellerBusyTime (fuel : nat) (tellerCount : nat) : M Sim Time :=
  setupSimulation tellerCount;;
  runSimulation fuel;;
  results ← gatherResults;
  lift (SimulationResults.maxTellerBusyTime results).

(** A whole run up to the collected per-teller busy times. *)
Definition simulate (fuel : nat) (tellerCount : nat) : M Sim (list Time) :=
  setupSimulation tellerCount;;
  runSimulation fuel;;
  gatherResults.

(** The five figures [main] prints, computed one after the other on the
    same engine. *)
Definition main_figures (fuel : nat) : M Sim (list Time) :=
  t1 ← maxTellerBusyTime fuel 1;
  t2 ← maxTellerBusyTime fuel 2;
  t3 ← maxTellerBusyTime fuel 3;
  t4 ← maxTellerBusyTime fuel 4;
  t5 ← maxTellerBusyTime fuel 5;
  mret [t1; t2; t3; t4; t5].

End Engine.


(** ** Implementations of the priority queue *)

(** *** An unsorted list, ties resolved in insertion order

    [top] is the earliest-pushed event among those of least time. *)

Module ListQueue.

Fixpoint top (l : list Event) : option Event :=
  match l with
  | [] => None
  | e :: rest =>
      match top rest with
      | None => Some e
      | Some m => if CompareEvent e m then Some m else Some e
      end
  end.

Fixpoint pop (l : list Event) : list Event :=
  match l with
  | [] => []
  | e :: rest =>
      match top rest with
      | None => rest
      | Some m => if CompareEvent e m then e :: pop rest else rest
      end
  end.

Definition queue : PriorityQueue :=
  {| pq_t := list Event;
     pq_new := [];
     pq_empty := fun l => match l with [] => true | _ => false end;
     pq_push := fun e l => l ++ [e];
     pq_top := top;
     pq_pop := pop;
     pq_contents := fun l => l;
     pq_wf := fun _ => True |}.

End ListQueue.

(** *** The same list, ties resolved in reverse insertion order

    [top] is the latest-pushed event among those of least time. *)

Module LifoQueue.

Fixpoint top (l : list Event) : option Event :=
  match l with
  | [] => None
  | e :: rest =>
      match top rest with
      | None => Some e
      | Some m => if CompareEvent m e then Some e else Some m
      end
  end.

Fixpoint pop (l : list Event) : list Event :=
  match l with
  | [] => []
  | e :: rest =>
      match top rest with
      | None => rest
      | Some m => if CompareEvent m e then rest else e :: pop rest
      end
  end.

Definition queue : PriorityQueue :=
  {| pq_t := list Event;
     pq_new := [];
     pq_empty := fun l => match l with [] => true | _ => false end;
     pq_push := fun e l => l ++ [e];
     pq_top := top;
     pq_pop := pop;
     pq_contents := fun l => l;
     pq_wf := fun _ => True |}.

End LifoQueue.

(** *** The binary heap of the container adaptor

    [priority_queue::push] is [push_back] followed by [std::push_heap],
    [pop] is [std::pop_heap] followed by [pop_back], and [top] is the
    front of the vector.  The two heap algorithms are written as the GNU
    library has them: a hole moves through the vector and the value is
    stored once the hole has found its place. *)

Module HeapQueue.

(** [first[i]], read where the algorithms only read inside the vector. *)
Definition at_ (v : list Event) (i : nat) (default : Event) : Event :=
  match v !! i with
  | Some e => e
  | None => default
  end.

(** [__push_heap(first, holeIndex, topIndex, value, comp)] *)
Fixpoint push_heap_loop (fuel : nat) (v : list Event)
    (holeIndex topIndex : nat) (value : Event) : list Event :=
  let parent := ((holeIndex - 1) / 2)%nat in
  match fuel with
  | O => <[holeIndex := value]> v
  | S fuel' =>
      if (topIndex <? holeIndex)%nat && CompareEvent (at_ v parent value) value
      then push_heap_loop fuel' (<[holeIndex := at_ v parent value]> v)
                          parent topIndex value
      else <[holeIndex := value]> v
  end.

Definition push_heap_aux (v : list Event) (holeIndex topIndex : nat)
    (value : Event) : list Event :=
  push_heap_loop holeIndex v holeIndex topIndex value.

(** [push_heap(first, last, comp)] *)
Definition push_heap (v : list Event) : list Event :=
  match last v with
  | None => v
  | Some value => push_heap_aux v (length v - 1) 0 value
  end.

(** The first loop of [__adjust_heap]: the hole descends to the child
    that [comp] does not order below its sibling. *)
Fixpoint adjust_loop (fuel : nat) (v : list Event)
    (holeIndex secondChild len : nat) (value : Event) : list Event * nat * nat :=
  match fuel with
  | O => (v, holeIndex, secondChild)
  | S fuel' =>
      if (secondChild <? (len - 1) / 2)%nat then
        let secondChild := (2 * (secondChild + 1))%nat in
        let secondChild :=
          if CompareEvent (at_ v secondChild value) (at_ v (secondChild - 1) value)
          then (secondChild - 1)%nat else secondChild in
        adjust_loop fuel' (<[holeIndex := at_ v secondChild value]> v)
                    secondChild secondChild len value
      else (v, holeIndex, secondChild)
  end.

(** [__adjust_heap(first, holeIndex, len, value, comp)] *)
Definition adjust_heap (v : list Event) (holeIndex len : nat) (value : Event)
  : list Event :=
  let topIndex := holeIndex in
  let '(v, holeIndex, secondChild) :=
    adjust_loop len v holeIndex holeIndex len value in
  let '(v, holeIndex) :=
    if Nat.even len && (secondChild =? (len - 2) / 2)%nat then
      let secondChild := (2 * (secondChild + 1))%nat in
      (<[holeIndex := at_ v (secondChild - 1) value]> v, (secondChild - 1)%nat)
    else (v, holeIndex) in
  push_heap_aux v holeIndex topIndex value.

(** [pop_heap(first, last, comp)] *)
Definition pop_heap (v : list Event) : list Event :=
  if (1 <? length v)%nat then
    let last_ := (length v - 1)%nat in
    match v !! last_, v !! 0%nat with
    | Some value, Some front =>
        adjust_heap (<[last_ := front]> v) 0 last_ value
    | _, _ => v
    end
  else v.

Definition push (e : Event) (v : list Event) : list Event :=
  push_heap (v ++ [e]).

Definition pop (v : list Event) : list Event :=
  removelast (pop_heap v).

(** The heap property: [comp] orders no parent below its child. *)
Definition is_heap (v : list Event) : Prop :=
  forall i p c, (0 < i)%nat ->
    v !! ((i - 1) / 2)%nat = Some p -> v !! i = Some c ->
    CompareEvent p c = false.

Definition le_at (v : list Event) (i j : nat) : Prop :=
  forall a b, v !! i = Some a -> v !! j = Some b ->
    get_event_time a <= get_event_time b.

(** The first [len] elements form a heap. *)
Definition heap_upto (len : nat) (v : list Event) : Prop :=
  forall i, (0 < i < len)%nat -> le_at v ((i - 1) / 2)%nat i.

(** The first [len] elements form a heap once position [h] is left out. *)
Definition hole_heap (len : nat) (v : list Event) (h : nat) : Prop :=
  (forall i, (0 < i < len)%nat -> i <> h -> ((i - 1) / 2)%nat <> h ->
     le_at v ((i - 1) / 2)%nat i) /\
  (forall i, (0 < i < len)%nat -> ((i - 1) / 2)%nat = h -> (0 < h)%nat ->
     le_at v ((h - 1) / 2)%nat i).

Definition queue : PriorityQueue :=
  {| pq_t := list Event;
     pq_new := [];
     pq_empty := fun v => match v with [] => true | _ => false end;
     pq_push := push;
     pq_top := head;
     pq_pop := pop;
     pq_contents := fun v => v;
     pq_wf := is_heap |}.

End HeapQueue.

(** ** The reference input *)

Definition SimulationInput00 : SimulationInput :=
  [ {| arrivalTime := 20; transactionTime := 6 |};
    {| arrivalTime := 22; transactionTime := 4 |};
    {| arrivalTime := 23; transactionTime := 2 |};
    {| arrivalTime := 30; transactionTime := 3 |} ].

(** * Specification *)

(** ** One event at the level of the queue's contents

    [gstep L T e pushed L' T']: processing [e] with bank line [L] and
    teller pool [T] pushes the events [pushed] and leaves line [L'] and
    pool [T']. *)

Inductive gstep : BankLine -> list Teller -> Event ->
                  list Event -> BankLine -> list Teller -> Prop :=
| gstep_serve L T a i t :
    searchFrom 0 T = Some i -> T !! i = Some t ->
    gstep L T (Arrival a)
      [Departure {| departureTime := Int.add (arrivalTime a) (transactionTime a);
                    tellerIndex := i |}]
      L (<[i := Teller.startWork (arrivalTime a) t]> T)
| gstep_wait L T a :
    searchFrom 0 T = None ->
    gstep L T (Arrival a) [] (L ++ [{| arrivalEvent := a |}]) T
| gstep_idle T d t t' :
    T !! tellerIndex d = Some t ->
    Teller.stopWork (departureTime d) t = inr t' ->
    gstep [] T (Departure d) [] [] (<[tellerIndex d := t']> T)
| gstep_next c L T d t t' :
    T !! tellerIndex d = Some t ->
    Teller.stopWork (departureTime d) t = inr t' ->
    gstep (c :: L) T (Departure d)
      [Departure {| departureTime :=
                      Int.add (departureTime d) (transactionTime (arrivalEvent c));
                    tellerIndex := tellerIndex d |}]
      L (<[tellerIndex d := Teller.startWork (departureTime d) t']> T).

(** ** The structural invariant

    Pending departures and busy tellers correspond one to one, and
    customers wait only while every teller is busy. *)

Fixpoint departures (C : list Event) : list DepartureEvent :=
  match C with
  | [] => []
  | Departure d :: C' => d :: departures C'
  | Arrival _ :: C' => departures C'
  end.

Fixpoint arrivals (C : list Event) : list ArrivalEvent :=
  match C with
  | [] => []
  | Arrival a :: C' => a :: arrivals C'
  | Departure _ :: C' => arrivals C'
  end.

(** The tellers a departure is pending for. *)
Fixpoint pending_tellers (C : list Event) : list TellerIndex :=
  match C with
  | [] => []
  | Departure d :: C' => tellerIndex d :: pending_tellers C'
  | Arrival _ :: C' => pending_tellers C'
  end.

(** The number of events still to be removed from the queue: two for a
    customer yet to arrive, one for a customer waiting or being served. *)
Definition remaining (C : list Event) (L : BankLine) : nat :=
  (2 * length (arrivals C) + length (departures C) + length L)%nat.

Record SInv (C : list Event) (L : BankLine) (T : list Teller) : Prop := mkSInv {
  sinv_nodup : NoDup (pending_tellers C);
  sinv_busy : forall i, i ∈ (pending_tellers C) <->
                exists t, T !! i = Some t /\ Teller.isAvailable t = false;
  sinv_line : L <> [] -> searchFrom 0 T = None;
  sinv_pool : T <> []
}.

(** ** Work conservation *)

(** An arrival event with non-negative [int] fields. *)
Definition valid_arrival (a : ArrivalEvent) : Prop :=
  0 <= arrivalTime a <= Int.INT_MAX /\ 0 <= transactionTime a <= Int.INT_MAX.

(** The busy time the pending departure [d] will add to its teller. *)
Definition pending (T : list Teller) (d : DepartureEvent) : Z :=
  match T !! tellerIndex d with
  | Some t =>
      match startBusy t with
      | Some since => Int.sub (departureTime d) since
      | None => 0
      end
  | None => 0
  end.

(** The transaction time of the input is at any moment split between
    what the tellers have accumulated, what the pending departures will
    add, what waits in the line and what has not arrived yet. *)
Fixpoint work_done (T : list Teller) : Z :=
  match T with
  | [] => 0
  | t :: T' => elapsedTimeBusy t + work_done T'
  end.

Fixpoint work_pending (T : list Teller) (C : list Event) : Z :=
  match C with
  | [] => 0
  | Departure d :: C' => pending T d + work_pending T C'
  | Arrival _ :: C' => work_pending T C'
  end.

Fixpoint work_waiting (L : BankLine) : Z :=
  match L with
  | [] => 0
  | c :: L' => transactionTime (arrivalEvent c) + work_waiting L'
  end.

Fixpoint work_expected (C : list Event) : Z :=
  match C with
  | [] => 0
  | Arrival a :: C' => transactionTime a + work_expected C'
  | Departure _ :: C' => work_expected C'
  end.

Definition total_work (input : SimulationInput) : Z :=
  foldr Z.add 0 (map transactionTime input).

Definition teller_ok (t : Teller) : Prop :=
  0 <= elapsedTimeBusy t /\
  forall since, startBusy t = Some since -> Int.in_range since.

Record WInv (W : Z) (C : list Event) (L : BankLine) (T : list Teller) : Prop := mkWInv {
  winv_arrivals : forall a, Arrival a ∈ C -> valid_arrival a;
  winv_line : forall c, c ∈ L -> valid_arrival (arrivalEvent c);
  winv_times : forall e, e ∈ C -> Int.in_range (get_event_time e);
  winv_tellers : Forall teller_ok T;
  winv_pending : forall d, Departure d ∈ C -> 0 <= pending T d;
  winv_total :
    work_done T + work_pending T C + work_waiting L + work_expected C = W
}.

(** Whatever the times add up to, a pending departure adds a
    non-negative time to its teller. *)
Record PInv (C : list Event) (L : BankLine) (T : list Teller) : Prop := mkPInv {
  pinv_arrivals : forall a, Arrival a ∈ C -> valid_arrival a;
  pinv_line : forall c, c ∈ L -> valid_arrival (arrivalEvent c);
  pinv_pending : forall d, Departure d ∈ C -> 0 <= pending T d
}.

(** What is true of a removed departure and the pool it is processed on:
    its teller exists and is busy, and the time it adds is non-negative. *)
Definition departure_served (T : list Teller) (d : DepartureEvent) : Prop :=
  (tellerIndex d < length T)%nat /\
  exists t since,
    T !! tellerIndex d = Some t /\ startBusy t = Some since /\
    0 <= Int.sub (departureTime d) since.

Definition event_served (p : Event * list Teller) : Prop :=
  match p.1 with
  | Arrival _ => True
  | Departure d => departure_served p.2 d
  end.

(** ** Event times

    No event time ever computed leaves the range of [int] when the work
    still to be started fits above every pending event time; and a teller
    has started no later than its pending departure. *)
Record TInv (C : list Event) (L : BankLine) (T : list Teller) : Prop := mkTInv {
  tinv_bound : forall e, e ∈ C ->
    get_event_time e + work_waiting L + work_expected C <= Int.INT_MAX;
  tinv_since : forall d, Departure d ∈ C ->
    exists t since, T !! tellerIndex d = Some t /\ startBusy t = Some since /\
                    since <= departureTime d
}.

(** With times that fit, the teller has also started no later than the
    departure is due. *)
Definition departure_safe (T : list Teller) (d : DepartureEvent) : Prop :=
  (tellerIndex d < length T)%nat /\
  exists t since,
    T !! tellerIndex d = Some t /\ startBusy t = Some since /\
    since <= departureTime d /\
    0 <= Int.sub (departureTime d) since.

Definition event_safe (p : Event * list Teller) : Prop :=
  match p.1 with
  | Arrival _ => True
  | Departure d => departure_safe p.2 d
  end.

(** ** Whole runs *)

Definition sumZ (l : list Z) : Z := foldr Z.add 0 l.

Definition valid_count (tellerCount : nat) : Prop :=
  (MIN_TELLERS <= tellerCount <= MAX_TELLERS)%nat.

(** ** Every way of breaking ties

    [gstep] as a function. *)
Definition gproc (e : Event) (L : BankLine) (T : list Teller)
  : option (list Event * BankLine * list Teller) :=
  match e with
  | Arrival a =>
      match searchFrom 0 T with
      | Some i =>
          t ← T !! i;
          Some ([Departure {| departureTime :=
                                Int.add (arrivalTime a) (transactionTime a);
                              tellerIndex := i |}],
                L, <[i := Teller.startWork (arrivalTime a) t]> T)
      | None => Some ([], L ++ [{| arrivalEvent := a |}], T)
      end
  | Departure d =>
      t ← T !! tellerIndex d;
      match Teller.stopWork (departureTime d) t with
      | inl _ => None
      | inr t' =>
          match L with
          | [] => Some ([], [], <[tellerIndex d := t']> T)
          | c :: L' =>
              Some ([Departure
                       {| departureTime :=
                            Int.add (departureTime d)
                                    (transactionTime (arrivalEvent c));
                          tellerIndex := tellerIndex d |}],
                    L', <[tellerIndex d := Teller.startWork (departureTime d) t']> T)
          end
      end
  end.

(** Each element of a list together with the others. *)
Fixpoint selections {A} (l : list A) : list (A * list A) :=
  match l with
  | [] => []
  | x :: l' => (x, l') :: map (fun p => (p.1, x :: p.2)) (selections l')
  end.

Definition least (e : Event) (C : list Event) : bool :=
  forallb (fun e' => negb (CompareEvent e e')) C.

(** The sequences of removed events that complete runs can have, each
    with the teller pool the run ends with, over all ways of choosing an
    event of least time. *)
Fixpoint traces (fuel : nat) (C : list Event) (L : BankLine) (T : list Teller)
  : list (list Event * list Teller) :=
  match C with
  | [] => [([], T)]
  | _ :: _ =>
      match fuel with
      | O => []
      | S fuel' =>
          p ← selections C;
          if least p.1 C then
            match gproc p.1 L T with
            | Some (pushed, L', T') =>
                map (fun r => (p.1 :: r.1, r.2))
                    (traces fuel' (pushed ++ p.2) L' T')
            | None => []
            end
          else []
      end
  end.

(** [e1] is removed from the queue at an earlier iteration than [e2]. *)
Definition removed_before (e1 e2 : Event) (removed : list Event) : Prop :=
  exists i j, (i < j)%nat /\ removed !! i = Some e1 /\ removed !! j = Some e2.

(** ** Runs of the engine *)

Section Specification.
Context {Q : PriorityQueue}.
Implicit Types s : BankSim3000 Q.

Definition push_all (pushed : list Event) (q : pq_t Q) : pq_t Q :=
  foldl (fun q e => pq_push Q e q) q pushed.

Definition contents s : list Event := pq_contents Q (eventQueue s).

(** One iteration of the loop, seen on the contents of the queue: [e] is
    removed, [C'] stays, [pushed] is added. *)
Record Iteration s (e : Event) (C' pushed : list Event) s2 : Prop := mkIteration {
  it_contents : contents s ≡ₚ e :: C';
  it_least : Forall (fun e' => get_event_time e <= get_event_time e') C';
  it_gstep : gstep (bankLine s) (tellers s) e pushed (bankLine s2) (tellers s2);
  it_contents' : contents s2 ≡ₚ pushed ++ C';
  it_wf : pq_wf Q (eventQueue s2);
  it_input : simulationInput s2 = simulationInput s
}.

(** A complete run, as a sequence of iterations. *)
Inductive GRun : BankSim3000 Q -> list (Event * list Teller) -> BankSim3000 Q -> Prop :=
| GRun_done s : contents s = [] -> GRun s [] s
| GRun_step s e C' pushed s2 log s' :
    Iteration s e C' pushed s2 -> GRun s2 log s' ->
    GRun s ((e, tellers s) :: log) s'.

(** The engine between runs: nothing queued, nobody waiting. *)
Definition ready s : Prop :=
  pq_wf Q (eventQueue s) /\ pq_empty Q (eventQueue s) = true /\ bankLine s = [].

(** The engines that calls of [maxTellerBusyTime] lead to from the
    constructor. *)
Inductive reachable (input : SimulationInput) : BankSim3000 Q -> Prop :=
| reachable_new : reachable input (new input)
| reachable_run s tellerCount fuel :
    reachable input s -> (2 * length input <= fuel)%nat ->
    reachable input (maxTellerBusyTime fuel tellerCount s).2.

(** The engine right after a successful [setupSimulation]. *)
Definition start_state (input : SimulationInput) (tellerCount : nat) : BankSim3000 Q :=
  {| simulationInput := input;
     eventQueue := push_all (map Arrival input) (pq_new Q);
     bankLine := [];
     tellers := replicate tellerCount Teller.new |}.

End Specification.

(** ** The stored input

    A computation that leaves the stored input alone, whether it returns
    or throws. *)
Definition keeps_input {Q : PriorityQueue} {A : Type}
    (m : M (BankSim3000 Q) A) : Prop :=
  forall s, simulationInput (m s).2 = simulationInput s.

(** ** Every transaction is worked by somebody

    The busy time the departures pending in [C] will add to teller [i]. *)
Fixpoint owed (T : list Teller) (i : TellerIndex) (C : list Event) : Z :=
  match C with
  | [] => 0
  | Departure d :: C' =>
      (if decide (tellerIndex d = i) then pending T d else 0) + owed T i C'
  | Arrival _ :: C' => owed T i C'
  end.

(** A transaction of length [x] is still to arrive, or waits in the
    line, or is part of what some teller has worked or is working. *)
Definition accounted (x : Time) (C : list Event) (L : BankLine) (T : list Teller)
  : Prop :=
  (exists a, Arrival a ∈ C /\ x = transactionTime a) \/
  (exists c, c ∈ L /\ x = transactionTime (arrivalEvent c)) \/
  (exists i t, T !! i = Some t /\ x <= elapsedTimeBusy t + owed T i C).



(** * Verification *)

(** ** Unfolding the monad *)

Ltac msimpl :=
  cbv beta delta [mbind mret M_bind M_ret throw get modify assert lift] in *;
  cbn beta iota in *.

(** ** Searching the teller pool *)

Lemma searchFrom_None (k : nat) (T : list Teller) :
  searchFrom k T = None <-> Forall (fun t => Teller.isAvailable t = false) T.
Proof.
  revert k. induction T as [|t T IH]; intros k; simpl.
  - split; [constructor | done].
  - destruct (Teller.isAvailable t) eqn:Ht.
    + split; [done | intros H; inversion H; congruence].
    + rewrite IH. split; [by constructor | by inversion 1].
Qed.

Lemma searchFrom_Some (k i : nat) (T : list Teller) :
  searchFrom k T = Some i ->
  (k <= i)%nat /\ exists t, T !! (i - k)%nat = Some t /\ Teller.isAvailable t = true.
Proof.
  revert k. induction T as [|t T IH]; intros k; simpl; [done|].
  destruct (Teller.isAvailable t) eqn:Ht.
  - intros [= <-]. split; [lia|]. exists t. by rewrite Nat.sub_diag.
  - intros H. destruct (IH _ H) as (Hle & t' & Hl & Ha).
    split; [lia|]. exists t'. split; [|done].
    replace (i - k)%nat with (S (i - S k)) by lia. done.
Qed.

(** ** The program refines [gstep] *)

Section Refinement.
Context {Q : PriorityQueue}.
Implicit Types s : BankSim3000 Q.

(** The program performs the step that [gstep] describes. *)
Lemma processEvent_gstep s e pushed L' T' :
  gstep (bankLine s) (tellers s) e pushed L' T' ->
  processEvent (get_event_time e) e s =
    (inr tt, {| simulationInput := simulationInput s;
                eventQueue := push_all pushed (eventQueue s);
                bankLine := L'; tellers := T' |}).
Proof.
  destruct s as [inp q L T]; simpl.
  inversion 1 as [L0 T0 a i t Hs Ht | L0 T0 a Hs | T0 d t t' Ht Hstop
                 | c L0 T0 d t t' Ht Hstop]; subst; simpl.
  - unfold processArrival, searchAvailableTellers, onTeller, pushEvent. msimpl.
    simpl. rewrite Hs. simpl. rewrite Ht. done.
  - unfold processArrival, searchAvailableTellers. msimpl. simpl. by rewrite Hs.
  - unfold processDeparture, onTeller. msimpl. simpl.
    rewrite Ht. by rewrite Hstop.
  - unfold processDeparture, onTeller, pushEvent. msimpl. simpl.
    rewrite Ht, Hstop. simpl.
    rewrite list_lookup_insert_eq by (by eapply lookup_lt_Some).
    by rewrite list_insert_insert_eq.
Qed.

End Refinement.

(** ** The structural invariant is kept *)

Lemma departures_perm C C' : C ≡ₚ C' -> departures C ≡ₚ departures C'.
Proof.
  induction 1 as [|[a|d] ? ? ? IH|[a|d] [a'|d'] ?|]; simpl;
    try done; try (by constructor); by etrans.
Qed.

Lemma arrivals_perm C C' : C ≡ₚ C' -> arrivals C ≡ₚ arrivals C'.
Proof.
  induction 1 as [|[a|d] ? ? ? IH|[a|d] [a'|d'] ?|]; simpl;
    try done; try (by constructor); by etrans.
Qed.

Lemma pending_tellers_perm C C' : C ≡ₚ C' -> pending_tellers C ≡ₚ pending_tellers C'.
Proof.
  induction 1 as [|[a|d] ? ? ? IH|[a|d] [a'|d'] ?|]; simpl;
    try done; try (by constructor); by etrans.
Qed.

Lemma remaining_perm C C' L : C ≡ₚ C' -> remaining C L = remaining C' L.
Proof.
  intros H. unfold remaining.
  by rewrite (arrivals_perm _ _ H), (departures_perm _ _ H).
Qed.

Lemma SInv_perm C C' L T : C ≡ₚ C' -> SInv C L T -> SInv C' L T.
Proof.
  intros H [H1 H2 H3 H4]. apply pending_tellers_perm in H.
  split; [by rewrite <- H | | done | done].
  intros i. rewrite <- H2. by rewrite H.
Qed.

Lemma stopWork_busy now t :
  Teller.isAvailable t = false ->
  exists since, startBusy t = Some since /\
    Teller.stopWork now t =
      inr {| startBusy := None;
             elapsedTimeBusy := Int.add (elapsedTimeBusy t) (Int.sub now since) |}.
Proof.
  unfold Teller.isAvailable, Teller.stopWork.
  destruct (startBusy t) as [since|]; [eauto | done].
Qed.

Lemma stopWork_inr now t t' :
  Teller.stopWork now t = inr t' ->
  exists since, startBusy t = Some since /\ startBusy t' = None /\
    elapsedTimeBusy t' = Int.add (elapsedTimeBusy t) (Int.sub now since).
Proof.
  unfold Teller.stopWork. destruct (startBusy t) as [since|]; [|done].
  intros [= <-]. eauto.
Qed.

(** Without pending departures every teller is idle and nobody waits. *)
Lemma SInv_final C L T :
  SInv C L T -> pending_tellers C = [] ->
  L = [] /\ Forall (fun t => Teller.isAvailable t = true) T.
Proof.
  intros [H1 H2 H3 H4] HC. rewrite HC in H2.
  assert (Forall (fun t => Teller.isAvailable t = true) T) as Hidle.
  { apply Forall_lookup. intros i t Ht.
    destruct (Teller.isAvailable t) eqn:Hb; [done|].
    exfalso. eapply not_elem_of_nil. apply H2. eauto. }
  split; [|done].
  destruct L as [|c L]; [done|]. exfalso.
  assert (searchFrom 0 T = None) as Hs by (by apply H3).
  apply searchFrom_None in Hs.
  destruct T as [|t T]; [done|].
  apply Forall_cons in Hs as [Hb _]. apply Forall_cons in Hidle as [Ha _]. congruence.
Qed.

(** No event finds the engine unable to process it. *)
Lemma gstep_progress e C L T :
  SInv (e :: C) L T -> exists pushed L' T', gstep L T e pushed L' T'.
Proof.
  intros [H1 H2 H3 H4]. destruct e as [a|d].
  - destruct (searchFrom 0 T) as [i|] eqn:Hs.
    + destruct (searchFrom_Some _ _ _ Hs) as (_ & t & Ht & _).
      rewrite Nat.sub_0_r in Ht. do 3 eexists. by eapply gstep_serve.
    + do 3 eexists. by apply gstep_wait.
  - destruct (proj1 (H2 (tellerIndex d))) as (t & Ht & Hb).
    { simpl. left. }
    destruct (stopWork_busy (departureTime d) t Hb) as (since & _ & Hstop).
    destruct L as [|c L]; do 3 eexists.
    + by eapply gstep_idle.
    + by eapply gstep_next.
Qed.

Lemma gstep_SInv e C L T pushed L' T' :
  SInv (e :: C) L T -> gstep L T e pushed L' T' -> SInv (pushed ++ C) L' T'.
Proof.
  intros [H1 H2 H3 H4].
  inversion 1 as [L0 T0 a i t Hs Ht | L0 T0 a Hs | T0 d t t' Ht Hstop
                 | c L0 T0 d t t' Ht Hstop]; subst;
    simpl; simpl in H1, H2.
  - destruct (searchFrom_Some _ _ _ Hs) as (_ & t0 & Ht0 & Ha).
    rewrite Nat.sub_0_r in Ht0. rewrite Ht in Ht0. injection Ht0 as <-.
    assert (i ∉ pending_tellers C) as Hi.
    { rewrite H2. intros (t1 & Ht1 & Hb).
      assert (t1 = t) as -> by congruence. congruence. }
    split; simpl.
    + by constructor.
    + intros j. rewrite elem_of_cons. destruct (decide (j = i)) as [->|Hne].
      * split; [|by left]. intros _. eexists.
        split; [apply list_lookup_insert_eq; by eapply lookup_lt_Some | done].
      * rewrite list_lookup_insert_ne by done. rewrite <- H2.
        split; [by intros [?|?] | by right].
    + intros HL. specialize (H3 HL). congruence.
    + intros HT. apply (f_equal length) in HT. rewrite length_insert in HT.
      by destruct T.
  - split; [done | done | done | done].
  - apply NoDup_cons in H1 as [Hd H1].
    apply stopWork_inr in Hstop as (since & Hsince & Hnone & _).
    split; simpl.
    + done.
    + intros j. destruct (decide (j = tellerIndex d)) as [->|Hne].
      * split; [done|]. intros (t1 & Ht1 & Hb).
        rewrite list_lookup_insert_eq in Ht1 by (by eapply lookup_lt_Some).
        injection Ht1 as <-. unfold Teller.isAvailable in Hb. by rewrite Hnone in Hb.
      * rewrite list_lookup_insert_ne by done. rewrite <- H2.
        rewrite elem_of_cons. split; [by right | by intros [?|?]].
    + done.
    + intros HT. apply (f_equal length) in HT. rewrite length_insert in HT.
      by destruct T.
  - split; simpl.
    + done.
    + intros j. rewrite H2. destruct (decide (j = tellerIndex d)) as [->|Hne].
      * split; intros _.
        -- eexists.
           split; [apply list_lookup_insert_eq; by eapply lookup_lt_Some | done].
        -- apply H2. by left.
      * by rewrite list_lookup_insert_ne.
    + intros _. apply (proj2 (searchFrom_None _ _)). apply Forall_insert; [|done].
      apply (proj1 (searchFrom_None 0%nat T)). by apply H3.
    + intros HT. apply (f_equal length) in HT. rewrite length_insert in HT.
      by destruct T.
Qed.

Lemma gstep_remaining e C L T pushed L' T' :
  gstep L T e pushed L' T' ->
  S (remaining (pushed ++ C) L') = remaining (e :: C) L.
Proof.
  inversion 1; subst; unfold remaining; simpl; rewrite ?length_app; simpl; lia.
Qed.

(** ** The event loop over a queue that honours its contract *)

Section Loop.
Context {Q : PriorityQueue} (HQ : PriorityQueueLaws Q).
Implicit Types s : BankSim3000 Q.

Lemma push_all_spec pushed (q : pq_t Q) :
  pq_wf Q q ->
  pq_wf Q (push_all pushed q) /\
  pq_contents Q (push_all pushed q) ≡ₚ pushed ++ pq_contents Q q.
Proof.
  revert q. induction pushed as [|e pushed IH]; intros q Hq; simpl; [done|].
  destruct (IH (pq_push Q e q)) as [Hwf Hc]; [by apply pq_push_wf|].
  split; [done|]. rewrite Hc, (pq_push_contents Q HQ e q Hq).
  by rewrite Permutation_middle.
Qed.

Lemma one_iteration s :
  pq_wf Q (eventQueue s) ->
  SInv (contents s) (bankLine s) (tellers s) ->
  pq_empty Q (eventQueue s) = false ->
  exists e C' pushed s1 s2,
    removeEvent s = (inr e, s1) /\ tellers s1 = tellers s /\
    processEvent (get_event_time e) e s1 = (inr tt, s2) /\
    Iteration s e C' pushed s2.
Proof.
  intros Hwf HS Hne.
  destruct (pq_top_pop Q HQ _ Hwf Hne) as (e & Htop & Hwf' & Hperm & Hleast).
  pose proof (SInv_perm _ _ _ _ Hperm HS) as HS'.
  destruct (gstep_progress _ _ _ _ HS') as (pushed & L' & T' & Hstep).
  destruct (push_all_spec pushed _ Hwf') as [Hwf2 Hc2].
  exists e, (pq_contents Q (pq_pop Q (eventQueue s))), pushed,
    (set_eventQueue (pq_pop Q (eventQueue s)) s).
  eexists. split; [|split; [done|split]].
  - unfold removeEvent. msimpl. by rewrite Htop.
  - by apply processEvent_gstep.
  - split; simpl; try done.
    rewrite Hperm in Hleast. apply Forall_cons in Hleast as [_ Hleast].
    eapply Forall_impl; [exact Hleast|]. intros e'. unfold CompareEvent. simpl. lia.
Qed.

Lemma Iteration_SInv s e C' pushed s2 :
  Iteration s e C' pushed s2 ->
  SInv (contents s) (bankLine s) (tellers s) ->
  SInv (contents s2) (bankLine s2) (tellers s2).
Proof.
  intros [H1 _ H3 H4 _ _] HS.
  eapply SInv_perm; [symmetry; exact H4|].
  eapply gstep_SInv; [|exact H3]. by eapply SInv_perm.
Qed.

Lemma Iteration_remaining s e C' pushed s2 :
  Iteration s e C' pushed s2 ->
  S (remaining (contents s2) (bankLine s2)) = remaining (contents s) (bankLine s).
Proof.
  intros [H1 _ H3 H4 _ _].
  rewrite (remaining_perm _ _ _ H4), (remaining_perm _ _ _ H1).
  by eapply gstep_remaining.
Qed.

(** With fuel for every remaining event the loop runs to completion. *)
Lemma runSimulationLog_total fuel s :
  pq_wf Q (eventQueue s) ->
  SInv (contents s) (bankLine s) (tellers s) ->
  (remaining (contents s) (bankLine s) <= fuel)%nat ->
  exists log s',
    runSimulationLog fuel s = (inr log, s') /\ GRun s log s' /\
    length log = remaining (contents s) (bankLine s).
Proof.
  revert s. induction fuel as [|fuel IH]; intros s Hwf HS Hfuel;
    destruct (pq_empty Q (eventQueue s)) eqn:Hempty.
  1, 3: apply (pq_empty_spec Q HQ _ Hwf) in Hempty; fold (contents s) in Hempty;
    destruct (SInv_final _ _ _ HS) as [HL _]; [by rewrite Hempty|];
    exists [], s; cbn [runSimulationLog];
    rewrite (proj2 (pq_empty_spec Q HQ _ Hwf) Hempty);
    split; [done|]; split; [by constructor|];
    unfold remaining; by rewrite Hempty, HL.
  - exfalso.
    assert (contents s = []) as Hc.
    { unfold remaining in Hfuel.
      destruct (contents s) as [|[a|d] C]; simpl in *; [done|lia|lia]. }
    apply (pq_empty_spec Q HQ _ Hwf) in Hc. congruence.
  - destruct (one_iteration s Hwf HS Hempty)
      as (e & C' & pushed & s1 & s2 & Hrm & HT1 & Hproc & Hit).
    pose proof (Iteration_remaining _ _ _ _ _ Hit) as Hrem.
    destruct (IH s2) as (log & s' & Hrun & HG & Hlen).
    { by destruct Hit. }
    { by eapply Iteration_SInv. }
    { lia. }
    exists ((e, tellers s) :: log), s'. split; [|split].
    + cbn [runSimulationLog]. rewrite Hempty. msimpl.
      rewrite Hrm, Hproc, Hrun. by rewrite HT1.
    + by econstructor.
    + simpl. lia.
Qed.

(** The loop without the log computes the same final state. *)
Lemma runSimulation_log fuel s :
  runSimulation fuel s =
    (match fst (runSimulationLog fuel s) with
     | inl err => inl err
     | inr _ => inr tt
     end, snd (runSimulationLog fuel s)).
Proof.
  revert s. induction fuel as [|fuel IH]; intros s; simpl;
    destruct (pq_empty Q (eventQueue s)); try done.
  msimpl. destruct (removeEvent s) as [[err|e] s1]; [done|].
  destruct (processEvent (get_event_time e) e s1) as [[err|[]] s2]; [done|].
  rewrite IH. by destruct (runSimulationLog fuel s2) as [[err|log] s'].
Qed.

End Loop.


(** ** Arithmetic on [int] *)

Lemma wrap_in_range z : Int.in_range (Int.wrap z).
Proof.
  unfold Int.in_range, Int.wrap, Int.INT_MIN, Int.INT_MAX.
  pose proof (Z.mod_pos_bound (z + 2147483648) 4294967296). lia.
Qed.

Lemma wrap_id z : Int.in_range z -> Int.wrap z = z.
Proof.
  unfold Int.in_range, Int.wrap, Int.INT_MIN, Int.INT_MAX. intros H.
  rewrite Z.mod_small; lia.
Qed.

Lemma add_exact a b : Int.in_range (a + b) -> Int.add a b = a + b.
Proof. apply wrap_id. Qed.

(** The time between a start and the departure computed from it is the
    transaction time, whether or not the departure time wrapped. *)
Lemma sub_add_cancel c t : Int.in_range t -> Int.sub (Int.add c t) c = t.
Proof.
  intros Ht. unfold Int.sub, Int.add, Int.wrap.
  replace ((c + t + 2147483648) `mod` 4294967296 - 2147483648 - c + 2147483648)
    with ((c + t + 2147483648) `mod` 4294967296 - c) by lia.
  rewrite Zminus_mod_idemp_l.
  replace (c + t + 2147483648 - c) with (t + 2147483648) by lia.
  apply wrap_id in Ht. unfold Int.wrap in Ht. done.
Qed.

(** ** The work invariant is kept *)

Lemma work_pending_perm T C C' : C ≡ₚ C' -> work_pending T C = work_pending T C'.
Proof.
  induction 1 as [|[a|d] ? ? ? IH|[a|d] [a'|d'] ?|]; simpl; lia.
Qed.

Lemma work_expected_perm C C' : C ≡ₚ C' -> work_expected C = work_expected C'.
Proof.
  induction 1 as [|[a|d] ? ? ? IH|[a|d] [a'|d'] ?|]; simpl; lia.
Qed.

Lemma WInv_perm W C C' L T : C ≡ₚ C' -> WInv W C L T -> WInv W C' L T.
Proof.
  intros H [H1 H2 H3 H4 H5 H6]. split; try done.
  - intros a. rewrite <- H. apply H1.
  - intros e. rewrite <- H. apply H3.
  - intros d. rewrite <- H. apply H5.
  - by rewrite <- (work_pending_perm _ _ _ H), <- (work_expected_perm _ _ H).
Qed.

Lemma work_waiting_app L c :
  work_waiting (L ++ [c]) = work_waiting L + transactionTime (arrivalEvent c).
Proof. induction L as [|c' L IH]; simpl; lia. Qed.

Lemma work_waiting_nonneg L :
  (forall c, c ∈ L -> valid_arrival (arrivalEvent c)) -> 0 <= work_waiting L.
Proof.
  induction L as [|c L IH]; simpl; intros H; [lia|].
  destruct (H c) as [_ Hc]; [by left|].
  assert (0 <= work_waiting L) by (apply IH; intros; apply H; by right). lia.
Qed.

Lemma work_expected_nonneg C :
  (forall a, Arrival a ∈ C -> valid_arrival a) -> 0 <= work_expected C.
Proof.
  induction C as [|[a|d] C IH]; simpl; intros H; [lia| |].
  - destruct (H a) as [_ Ha]; [by left|].
    assert (0 <= work_expected C) by (apply IH; intros; apply H; by right). lia.
  - apply IH. intros; apply H; by right.
Qed.

Lemma work_pending_nonneg T C :
  (forall d, Departure d ∈ C -> 0 <= pending T d) -> 0 <= work_pending T C.
Proof.
  induction C as [|[a|d] C IH]; simpl; intros H; [lia| |].
  - apply IH. intros; apply H; by right.
  - assert (0 <= pending T d) by (apply H; by left).
    assert (0 <= work_pending T C) by (apply IH; intros; apply H; by right). lia.
Qed.

Lemma work_done_nonneg T : Forall teller_ok T -> 0 <= work_done T.
Proof.
  induction 1 as [|t T [Ht _] _ IH]; simpl; lia.
Qed.

Lemma work_done_insert T i t t' :
  T !! i = Some t ->
  work_done (<[i := t']> T) = work_done T - elapsedTimeBusy t + elapsedTimeBusy t'.
Proof.
  revert i. induction T as [|t0 T IH]; intros [|i]; simpl; try done.
  - intros [= ->]. lia.
  - intros H. rewrite (IH _ H). lia.
Qed.

Lemma work_done_lookup T i t :
  Forall teller_ok T -> T !! i = Some t -> elapsedTimeBusy t <= work_done T.
Proof.
  intros H Ht. pose proof (work_done_insert T i t Teller.new Ht) as Hi.
  assert (0 <= work_done (<[i := Teller.new]> T)).
  { apply work_done_nonneg. apply Forall_insert; [done|]. by split. }
  simpl in Hi. lia.
Qed.

Lemma pending_insert_ne T i t' d :
  tellerIndex d <> i -> pending (<[i := t']> T) d = pending T d.
Proof. intros H. unfold pending. by rewrite list_lookup_insert_ne. Qed.

Lemma elem_of_pending_tellers C d :
  Departure d ∈ C -> tellerIndex d ∈ pending_tellers C.
Proof.
  induction C as [|[a|d'] C IH]; simpl.
  - by intros ?%elem_of_nil.
  - intros [?|?]%elem_of_cons; [done | by apply IH].
  - intros [[= ->]|?]%elem_of_cons; [by left | right; by apply IH].
Qed.

Lemma work_pending_insert T C i t' :
  i ∉ pending_tellers C -> work_pending (<[i := t']> T) C = work_pending T C.
Proof.
  induction C as [|[a|d] C IH]; simpl; intros H; [done | by apply IH |].
  apply not_elem_of_cons in H as [Hne Hnot].
  rewrite pending_insert_ne by done. by rewrite IH.
Qed.

Lemma pending_started T i t now d :
  (i < length T)%nat -> tellerIndex d = i ->
  pending (<[i := Teller.startWork now t]> T) d = Int.sub (departureTime d) now.
Proof.
  intros Hi <-. unfold pending. by rewrite list_lookup_insert_eq.
Qed.

(** What a teller has worked and is still to work never exceeds the
    total, so the accumulator does not wrap when a period is added. *)
Lemma stopWork_exact W C L T d t t' :
  W <= Int.INT_MAX ->
  WInv W (Departure d :: C) L T ->
  T !! tellerIndex d = Some t ->
  Teller.stopWork (departureTime d) t = inr t' ->
  startBusy t' = None /\
  elapsedTimeBusy t' = elapsedTimeBusy t + pending T d /\
  teller_ok t'.
Proof.
  intros HW [H1 H2 H3 H4 H5 H6] Ht Hstop.
  apply stopWork_inr in Hstop as (since & Hsince & Hnone & Hel).
  assert (pending T d = Int.sub (departureTime d) since) as Hp.
  { unfold pending. by rewrite Ht, Hsince. }
  assert (0 <= pending T d) as Hp0 by (apply H5; by left).
  pose proof (work_done_lookup _ _ _ H4 Ht) as Hle.
  pose proof (proj1 (Forall_lookup _ _) H4 _ _ Ht) as [Ht0 _].
  assert (0 <= work_pending T C) as HC.
  { apply work_pending_nonneg. intros; apply H5; by right. }
  pose proof (work_waiting_nonneg L H2) as HL.
  assert (0 <= work_expected C) as HE.
  { apply work_expected_nonneg. intros; apply H1; by right. }
  simpl in H6.
  assert (elapsedTimeBusy t' = elapsedTimeBusy t + pending T d) as Hel'.
  { rewrite Hel, <- Hp. apply add_exact.
    unfold Int.in_range, Int.INT_MIN, Int.INT_MAX in *. lia. }
  split; [done|]. split; [done|]. split; [lia|]. intros since'. by rewrite Hnone.
Qed.

Lemma gstep_WInv W e C L T pushed L' T' :
  W <= Int.INT_MAX ->
  SInv (e :: C) L T -> WInv W (e :: C) L T ->
  gstep L T e pushed L' T' -> WInv W (pushed ++ C) L' T'.
Proof.
  intros HW HS HWI Hstep.
  pose proof HWI as [H1 H2 H3 H4 H5 H6]. pose proof HS as [S1 S2 S3 S4].
  inversion Hstep as [L0 T0 a i t Hs Ht | L0 T0 a Hs | T0 d t t' Ht Hstop
                     | c L0 T0 d t t' Ht Hstop]; subst; simpl in S1, S2.
  - (* an arrival is served at once *)
    destruct (searchFrom_Some _ _ _ Hs) as (_ & t0 & Ht0 & Ha).
    rewrite Nat.sub_0_r, Ht in Ht0. injection Ht0 as <-.
    assert (i ∉ pending_tellers C) as Hi.
    { rewrite S2. intros (t1 & Ht1 & Hb).
      assert (t1 = t) as -> by congruence. congruence. }
    destruct (H1 a) as [Harr Htxn]; [by left|].
    assert (pending (<[i:=Teller.startWork (arrivalTime a) t]> T)
              {| departureTime := Int.add (arrivalTime a) (transactionTime a);
                 tellerIndex := i |} = transactionTime a) as Hp.
    { rewrite pending_started; [|by eapply lookup_lt_Some|done]. simpl. apply sub_add_cancel.
      unfold Int.in_range, Int.INT_MIN, Int.INT_MAX in *. lia. }
    split; simpl.
    + intros a' [?|?]%elem_of_cons; [done|]. apply H1. by right.
    + done.
    + intros e [->|?]%elem_of_cons; [apply wrap_in_range|]. apply H3. by right.
    + apply Forall_insert; [done|].
      pose proof (proj1 (Forall_lookup _ _) H4 _ _ Ht) as [Ht0 _].
      split; [done|]. simpl. intros since [= <-].
      unfold Int.in_range, Int.INT_MIN, Int.INT_MAX in *. lia.
    + intros d [[= ->]|Hd]%elem_of_cons; [rewrite Hp; lia|].
      rewrite pending_insert_ne.
      * apply H5. by right.
      * intros <-. by apply Hi, elem_of_pending_tellers.
    + rewrite Hp, work_pending_insert by done.
      rewrite (work_done_insert _ _ _ _ Ht). simpl in *. lia.
  - (* an arrival joins the line *)
    destruct (H1 a) as [Harr Htxn]; [by left|].
    split; simpl.
    + intros a' ?. apply H1. by right.
    + intros c [?| ->%list_elem_of_singleton]%elem_of_app; [by apply H2|]. by split.
    + intros e ?. apply H3. by right.
    + done.
    + intros d ?. apply H5. by right.
    + rewrite work_waiting_app. simpl in *. lia.
  - (* a departure leaves its teller idle *)
    apply NoDup_cons in S1 as [Hd S1].
    destruct (stopWork_exact _ _ _ _ _ _ _ HW HWI Ht Hstop) as (Hnone & Hel & Hok).
    split; simpl.
    + intros a' ?. apply H1. by right.
    + done.
    + intros e ?. apply H3. by right.
    + by apply Forall_insert.
    + intros d' Hd'. rewrite pending_insert_ne.
      * apply H5. by right.
      * intros Heq. apply Hd. rewrite <- Heq. by apply elem_of_pending_tellers.
    + rewrite work_pending_insert by done.
      rewrite (work_done_insert _ _ _ _ Ht). simpl in *. lia.
  - (* a departure hands its teller the next customer *)
    apply NoDup_cons in S1 as [Hd S1].
    destruct (stopWork_exact _ _ _ _ _ _ _ HW HWI Ht Hstop) as (Hnone & Hel & Hok).
    destruct (H2 c) as [Harr Htxn]; [by left|].
    assert (pending (<[tellerIndex d:=Teller.startWork (departureTime d) t']> T)
              {| departureTime :=
                   Int.add (departureTime d) (transactionTime (arrivalEvent c));
                 tellerIndex := tellerIndex d |}
            = transactionTime (arrivalEvent c)) as Hp.
    { rewrite pending_started; [|by eapply lookup_lt_Some|done]. simpl. apply sub_add_cancel.
      unfold Int.in_range, Int.INT_MIN, Int.INT_MAX in *. lia. }
    split; simpl.
    + intros a' [?|?]%elem_of_cons; [done|]. apply H1. by right.
    + intros c' ?. apply H2. by right.
    + intros e [->|?]%elem_of_cons; [apply wrap_in_range|]. apply H3. by right.
    + apply Forall_insert; [done|]. destruct Hok as [Hok _].
      split; [done|]. simpl. intros since [= <-].
      apply (H3 (Departure d)). by left.
    + intros d' [[= ->]|Hd']%elem_of_cons; [rewrite Hp; lia|].
      rewrite pending_insert_ne.
      * apply H5. by right.
      * intros Heq. apply Hd. rewrite <- Heq. by apply elem_of_pending_tellers.
    + rewrite Hp, work_pending_insert by done.
      rewrite (work_done_insert _ _ _ _ Ht). simpl in *. lia.
Qed.

(** ** Removed departures add non-negative time *)

Lemma PInv_perm C C' L T : C ≡ₚ C' -> PInv C L T -> PInv C' L T.
Proof.
  intros H [H1 H2 H3]. split; try done.
  - intros a. rewrite <- H. apply H1.
  - intros d. rewrite <- H. apply H3.
Qed.

Lemma gstep_PInv e C L T pushed L' T' :
  SInv (e :: C) L T -> PInv (e :: C) L T ->
  gstep L T e pushed L' T' -> PInv (pushed ++ C) L' T'.
Proof.
  intros [S1 S2 S3 S4] [H1 H2 H3] Hstep.
  inversion Hstep as [L0 T0 a i t Hs Ht | L0 T0 a Hs | T0 d t t' Ht Hstop
                     | c L0 T0 d t t' Ht Hstop]; subst; simpl in S1, S2.
  - destruct (searchFrom_Some _ _ _ Hs) as (_ & t0 & Ht0 & Ha).
    rewrite Nat.sub_0_r, Ht in Ht0. injection Ht0 as <-.
    assert (i ∉ pending_tellers C) as Hi.
    { rewrite S2. intros (t1 & Ht1 & Hb).
      assert (t1 = t) as -> by congruence. congruence. }
    destruct (H1 a) as [Harr Htxn]; [by left|].
    split; simpl.
    + intros a' [?|?]%elem_of_cons; [done|]. apply H1. by right.
    + done.
    + intros d [[= ->]|Hd]%elem_of_cons.
      * rewrite pending_started; [|by eapply lookup_lt_Some|done]. simpl.
        rewrite sub_add_cancel; [lia|].
        unfold Int.in_range, Int.INT_MIN, Int.INT_MAX in *. lia.
      * rewrite pending_insert_ne.
        -- apply H3. by right.
        -- intros <-. by apply Hi, elem_of_pending_tellers.
  - destruct (H1 a) as [Harr Htxn]; [by left|].
    split; simpl.
    + intros a' ?. apply H1. by right.
    + intros c [?| ->%list_elem_of_singleton]%elem_of_app; [by apply H2|]. by split.
    + intros d ?. apply H3. by right.
  - apply NoDup_cons in S1 as [Hd S1].
    split; simpl.
    + intros a' ?. apply H1. by right.
    + done.
    + intros d' Hd'. rewrite pending_insert_ne.
      * apply H3. by right.
      * intros Heq. apply Hd. rewrite <- Heq. by apply elem_of_pending_tellers.
  - apply NoDup_cons in S1 as [Hd S1].
    destruct (H2 c) as [Harr Htxn]; [by left|].
    split; simpl.
    + intros a' [?|?]%elem_of_cons; [done|]. apply H1. by right.
    + intros c' ?. apply H2. by right.
    + intros d' [[= ->]|Hd']%elem_of_cons.
      * rewrite pending_started; [|by eapply lookup_lt_Some|done]. simpl.
        rewrite sub_add_cancel; [lia|].
        unfold Int.in_range, Int.INT_MIN, Int.INT_MAX in *. lia.
      * rewrite pending_insert_ne.
        -- apply H3. by right.
        -- intros Heq. apply Hd. rewrite <- Heq. by apply elem_of_pending_tellers.
Qed.

(** ** The time invariant is kept *)

Lemma TInv_perm C C' L T : C ≡ₚ C' -> TInv C L T -> TInv C' L T.
Proof.
  intros H [H1 H2]. split.
  - intros e He. rewrite <- (work_expected_perm _ _ H). apply H1. by rewrite H.
  - intros d. rewrite <- H. apply H2.
Qed.

Lemma gstep_TInv W e C L T pushed L' T' :
  SInv (e :: C) L T -> WInv W (e :: C) L T -> TInv (e :: C) L T ->
  gstep L T e pushed L' T' ->
  TInv (pushed ++ C) L' T' /\
  Forall (fun e' => get_event_time e <= get_event_time e') pushed.
Proof.
  intros HS HWI [B1 B2] Hstep.
  pose proof HWI as [H1 H2 H3 H4 H5 _]. pose proof HS as [S1 S2 S3 S4].
  assert (0 <= work_waiting L) as HL by (by apply work_waiting_nonneg).
  assert (0 <= work_expected C) as HE.
  { apply work_expected_nonneg. intros; apply H1; by right. }
  pose proof (B1 e (list_elem_of_here _ _)) as Hb.
  pose proof (H3 e (list_elem_of_here _ _)) as Hr.
  inversion Hstep as [L0 T0 a i t Hs Ht | L0 T0 a Hs | T0 d t t' Ht Hstop
                     | c L0 T0 d t t' Ht Hstop]; subst; simpl in S1, S2.
  - destruct (searchFrom_Some _ _ _ Hs) as (_ & t0 & Ht0 & Ha).
    rewrite Nat.sub_0_r, Ht in Ht0. injection Ht0 as <-.
    assert (i ∉ pending_tellers C) as Hi.
    { rewrite S2. intros (t1 & Ht1 & Hb').
      assert (t1 = t) as -> by congruence. congruence. }
    destruct (H1 a) as [Harr Htxn]; [by left|].
    assert (Int.add (arrivalTime a) (transactionTime a)
            = arrivalTime a + transactionTime a) as Hadd.
    { apply add_exact. simpl in Hb.
      unfold Int.in_range, Int.INT_MIN, Int.INT_MAX in *. lia. }
    split; [split|]; simpl.
    + intros e [->|He]%elem_of_cons; simpl.
      * rewrite Hadd. simpl in Hb. lia.
      * specialize (B1 e (list_elem_of_further _ _ _ He)). simpl in B1. lia.
    + intros d [[= ->]|Hd]%elem_of_cons; simpl.
      * exists (Teller.startWork (arrivalTime a) t), (arrivalTime a).
        rewrite list_lookup_insert_eq by (by eapply lookup_lt_Some).
        split; [done|]. split; [done|]. rewrite Hadd. lia.
      * rewrite list_lookup_insert_ne.
        -- apply B2. by right.
        -- intros ->. by apply Hi, elem_of_pending_tellers.
    + constructor; [|done]. simpl. rewrite Hadd. lia.
  - destruct (H1 a) as [Harr Htxn]; [by left|].
    split; [split|]; simpl; [| |done].
    + intros e He. specialize (B1 e (list_elem_of_further _ _ _ He)).
      rewrite work_waiting_app. simpl in *. lia.
    + intros d Hd. apply B2. by right.
  - apply NoDup_cons in S1 as [Hd S1].
    split; [split|]; simpl; [| |done].
    + intros e He. specialize (B1 e (list_elem_of_further _ _ _ He)). simpl in B1. lia.
    + intros d' Hd'. rewrite list_lookup_insert_ne.
      * apply B2. by right.
      * intros Heq. apply Hd. rewrite Heq. by apply elem_of_pending_tellers.
  - apply NoDup_cons in S1 as [Hd S1].
    destruct (H2 c) as [Harr Htxn]; [by left|].
    assert (0 <= work_waiting L') as HL'.
    { apply work_waiting_nonneg. intros; apply H2; by right. }
    assert (Int.add (departureTime d) (transactionTime (arrivalEvent c))
            = departureTime d + transactionTime (arrivalEvent c)) as Hadd.
    { apply add_exact. simpl in Hb, Hr.
      unfold Int.in_range, Int.INT_MIN, Int.INT_MAX in *. lia. }
    split; [split|]; simpl.
    + intros e [->|He]%elem_of_cons; simpl.
      * rewrite Hadd. simpl in Hb. lia.
      * specialize (B1 e (list_elem_of_further _ _ _ He)). simpl in B1. lia.
    + intros d' [[= ->]|Hd']%elem_of_cons; simpl.
      * exists (Teller.startWork (departureTime d) t'), (departureTime d).
        rewrite list_lookup_insert_eq by (by eapply lookup_lt_Some).
        split; [done|]. split; [done|]. rewrite Hadd. lia.
      * rewrite list_lookup_insert_ne.
        -- apply B2. by right.
        -- intros Heq. apply Hd. rewrite Heq. by apply elem_of_pending_tellers.
    + constructor; [|done]. simpl. rewrite Hadd. lia.
Qed.


(** ** Complete runs *)

Section Runs.
Context {Q : PriorityQueue} (HQ : PriorityQueueLaws Q).
Implicit Types s : BankSim3000 Q.

(** An invariant of single steps holds at the end of a run. *)
Lemma GRun_invariant (I : list Event -> BankLine -> list Teller -> Prop) s log s' :
  (forall C C' L T, C ≡ₚ C' -> I C L T -> I C' L T) ->
  (forall e C L T pushed L' T',
      I (e :: C) L T -> gstep L T e pushed L' T' -> I (pushed ++ C) L' T') ->
  GRun s log s' ->
  I (contents s) (bankLine s) (tellers s) ->
  I (contents s') (bankLine s') (tellers s').
Proof.
  intros Hperm Hstep. induction 1 as [|s e C' pushed s2 log s' Hit _ IH]; [done|].
  intros HI. apply IH. destruct Hit as [H1 _ H3 H4 _ _].
  eapply Hperm; [symmetry; exact H4|]. eapply Hstep; [|exact H3]. by eapply Hperm.
Qed.

Lemma GRun_end s log s' :
  GRun s log s' -> pq_wf Q (eventQueue s) ->
  contents s' = [] /\ pq_wf Q (eventQueue s') /\
  simulationInput s' = simulationInput s.
Proof.
  induction 1 as [|s e C' pushed s2 log s' Hit _ IH]; [done|].
  intros _. destruct IH as (? & ? & ->); [by destruct Hit|]. by destruct Hit.
Qed.

Lemma GRun_SInv s log s' :
  GRun s log s' ->
  SInv (contents s) (bankLine s) (tellers s) ->
  SInv (contents s') (bankLine s') (tellers s').
Proof.
  apply (GRun_invariant SInv); [apply SInv_perm | apply gstep_SInv].
Qed.

Lemma GRun_WInv W s log s' :
  W <= Int.INT_MAX ->
  GRun s log s' ->
  SInv (contents s) (bankLine s) (tellers s) ->
  WInv W (contents s) (bankLine s) (tellers s) ->
  WInv W (contents s') (bankLine s') (tellers s').
Proof.
  intros HW Hrun HS HWI.
  apply (GRun_invariant (fun C L T => SInv C L T /\ WInv W C L T) s log s');
    try done.
  - intros C C' L T HC [? ?]. split; [by eapply SInv_perm | by eapply WInv_perm].
  - intros e C L T pushed L' T' [? ?] Hstep.
    split; [by eapply gstep_SInv | by eapply gstep_WInv].
Qed.

(** Every departure finds its teller at work and adds a non-negative
    time, whatever the times of the input add up to. *)
Lemma GRun_served s log s' :
  GRun s log s' ->
  SInv (contents s) (bankLine s) (tellers s) ->
  PInv (contents s) (bankLine s) (tellers s) ->
  Forall event_served log.
Proof.
  induction 1 as [|s e C' pushed s2 log s' Hit _ IH]; intros HS HP; [done|].
  pose proof Hit as [H1 H2 H3 H4 _ _].
  pose proof (SInv_perm _ _ _ _ H1 HS) as HS1.
  pose proof (PInv_perm _ _ _ _ H1 HP) as HP1.
  constructor.
  - unfold event_served. simpl. destruct e as [a|d]; [done|].
    destruct (proj1 (sinv_busy _ _ _ HS1 (tellerIndex d))) as (t & Ht & Hb).
    { simpl. by left. }
    destruct (stopWork_busy (departureTime d) t Hb) as (since & Hsince & _).
    split; [by eapply lookup_lt_Some|]. exists t, since.
    split; [done|]. split; [done|].
    pose proof (pinv_pending _ _ _ HP1 d (list_elem_of_here _ _)) as Hp.
    unfold pending in Hp. by rewrite Ht, Hsince in Hp.
  - apply IH.
    + eapply SInv_perm; [symmetry; exact H4|]. by eapply gstep_SInv.
    + eapply PInv_perm; [symmetry; exact H4|]. by eapply gstep_PInv.
Qed.

(** Events leave the queue in time order, and every departure finds its
    teller at work since no later than the departure time. *)
Lemma GRun_log W s log s' :
  W <= Int.INT_MAX ->
  GRun s log s' ->
  SInv (contents s) (bankLine s) (tellers s) ->
  WInv W (contents s) (bankLine s) (tellers s) ->
  TInv (contents s) (bankLine s) (tellers s) ->
  Forall event_safe log /\
  forall lb, Forall (fun e => lb <= get_event_time e) (contents s) ->
    Forall (fun p => lb <= get_event_time p.1) log /\
    StronglySorted Z.le (map (fun p => get_event_time p.1) log).
Proof.
  intros HW. induction 1 as [|s e C' pushed s2 log s' Hit _ IH];
    intros HS HWI HT.
  { split; [done|]. intros lb _. split; [done | constructor]. }
  pose proof Hit as [H1 H2 H3 H4 _ _].
  pose proof (SInv_perm _ _ _ _ H1 HS) as HS1.
  pose proof (WInv_perm _ _ _ _ _ H1 HWI) as HW1.
  pose proof (TInv_perm _ _ _ _ H1 HT) as HT1.
  destruct (gstep_TInv _ _ _ _ _ _ _ _ HS1 HW1 HT1 H3) as [HT2 Hpushed].
  destruct IH as [IHsafe IHsorted].
  { eapply SInv_perm; [symmetry; exact H4|]. by eapply gstep_SInv. }
  { eapply WInv_perm; [symmetry; exact H4|]. by eapply gstep_WInv. }
  { eapply TInv_perm; [symmetry; exact H4|]. done. }
  destruct (IHsorted (get_event_time e)) as [Hlb Hsorted].
  { rewrite H4. by apply Forall_app. }
  split.
  - constructor; [|done]. unfold event_safe. simpl.
    destruct e as [a|d]; [done|].
    destruct HT1 as [_ B2]. destruct (B2 d) as (t & since & Ht & Hsince & Hle); [by left|].
    split; [by eapply lookup_lt_Some|]. exists t, since.
    split; [done|]. split; [done|]. split; [done|].
    destruct HW1 as [_ _ _ _ H5 _]. specialize (H5 d (list_elem_of_here _ _)).
    unfold pending in H5. by rewrite Ht, Hsince in H5.
  - intros lb Hlb0. rewrite H1 in Hlb0. apply Forall_cons in Hlb0 as [Hlbe _].
    split.
    + constructor; [done|]. eapply Forall_impl; [exact Hlb|]. simpl. intros; lia.
    + simpl. constructor; [done|]. by apply Forall_fmap.
Qed.

(** More fuel does not change a completed run. *)
Lemma runSimulationLog_fuel fuel fuel' s log s' :
  runSimulationLog fuel s = (inr log, s') -> (fuel <= fuel')%nat ->
  runSimulationLog fuel' s = (inr log, s').
Proof.
  revert fuel' s log s'. induction fuel as [|fuel IH]; intros fuel' s log s';
    cbn [runSimulationLog]; destruct (pq_empty Q (eventQueue s)) eqn:He.
  - intros [= <- <-] _. destruct fuel'; cbn [runSimulationLog]; by rewrite He.
  - done.
  - intros [= <- <-] _. destruct fuel'; cbn [runSimulationLog]; by rewrite He.
  - intros Hrun Hle. destruct fuel' as [|fuel']; [lia|].
    cbn [runSimulationLog]. rewrite He. msimpl.
    destruct (removeEvent s) as [[err|e] s1]; [done|].
    destruct (processEvent (get_event_time e) e s1) as [[err|[]] s2]; [done|].
    destruct (runSimulationLog fuel s2) as [[err|log2] s3] eqn:Hrec; [done|].
    erewrite IH; [done | exact Hrec | lia].
Qed.


End Runs.


(** ** Setting up a run *)

Section Setup.
Context {Q : PriorityQueue}.
Implicit Types s : BankSim3000 Q.

Local Abbreviation start_state := (start_state (Q:=Q)).

Lemma emplace_tellers_replicate n ts :
  emplace_tellers n ts = ts ++ replicate n Teller.new.
Proof.
  revert ts. induction n as [|n IH]; intros ts; simpl.
  - by rewrite app_nil_r.
  - rewrite IH. by rewrite <- app_assoc.
Qed.

Lemma foldl_push_arrivals input (q : pq_t Q) :
  foldl (fun q arrival => pq_push Q (Arrival arrival) q) q input
  = push_all (map Arrival input) q.
Proof. revert q. induction input as [|a input IH]; intros q; simpl; [done | apply IH]. Qed.

Lemma drainQueue_empty fuel (q : pq_t Q) :
  pq_empty Q q = true -> drainQueue fuel q = q.
Proof. intros H. destruct fuel; simpl; by rewrite H. Qed.

Lemma setupSimulation_invalid n s :
  (n < MIN_TELLERS \/ MAX_TELLERS < n)%nat ->
  exists what, setupSimulation n s = (inl (invalid_argument what), s).
Proof.
  intros H. unfold setupSimulation.
  destruct (n <? MIN_TELLERS)%nat eqn:H1; [by eexists|].
  destruct (MAX_TELLERS <? n)%nat eqn:H2; [by eexists|].
  apply Nat.ltb_ge in H1, H2. lia.
Qed.

Lemma setupSimulation_not_invalid n s what :
  (MIN_TELLERS <= n <= MAX_TELLERS)%nat ->
  (setupSimulation n s).1 <> inl (invalid_argument what).
Proof.
  intros H. unfold setupSimulation.
  destruct (n <? MIN_TELLERS)%nat eqn:H1; [apply Nat.ltb_lt in H1; lia|].
  destruct (MAX_TELLERS <? n)%nat eqn:H2; [apply Nat.ltb_lt in H2; lia|].
  unfold setupEventQueue, resetTellers, clearBankLine. msimpl.
  destruct (pq_empty Q (eventQueue s)); simpl; [|done].
  by case_bool_decide.
Qed.

Lemma setupSimulation_valid (HQ : PriorityQueueLaws Q) n s :
  (MIN_TELLERS <= n <= MAX_TELLERS)%nat -> ready s ->
  setupSimulation n s = (inr tt, start_state (simulationInput s) n).
Proof.
  intros H (Hwf & Hempty & HL). unfold setupSimulation.
  destruct (n <? MIN_TELLERS)%nat eqn:H1; [apply Nat.ltb_lt in H1; lia|].
  destruct (MAX_TELLERS <? n)%nat eqn:H2; [apply Nat.ltb_lt in H2; lia|].
  pose proof (pq_empty_new Q HQ _ Hwf Hempty) as Hnew.
  destruct s as [inp q L T]; simpl in *. subst q L.
  unfold setupEventQueue, resetTellers, clearBankLine. msimpl. simpl.
  rewrite Hempty. simpl.
  rewrite drainQueue_empty by done. rewrite foldl_push_arrivals.
  by rewrite emplace_tellers_replicate.
Qed.

Lemma ready_new input : PriorityQueueLaws Q -> ready (new (Q:=Q) input).
Proof.
  intros HQ. split; [apply HQ|]. split; [|done]. simpl.
  apply (pq_empty_spec Q HQ); apply HQ.
Qed.

Section Start.
Context (HQ : PriorityQueueLaws Q).
Variables (input : SimulationInput) (n : nat).

Lemma start_wf : pq_wf Q (eventQueue (start_state input n)).
Proof. apply (push_all_spec HQ). apply HQ. Qed.

Lemma start_contents : contents (start_state input n) ≡ₚ map Arrival input.
Proof.
  unfold contents. simpl.
  rewrite (proj2 (push_all_spec HQ _ _ (pq_new_wf Q HQ))).
  by rewrite (pq_new_contents Q HQ), app_nil_r.
Qed.

Lemma pending_tellers_arrivals : pending_tellers (map Arrival input) = [].
Proof. induction input; simpl; done. Qed.

Lemma start_SInv :
  (MIN_TELLERS <= n)%nat ->
  SInv (contents (start_state input n)) (bankLine (start_state input n))
       (tellers (start_state input n)).
Proof.
  intros Hn. eapply SInv_perm; [symmetry; apply start_contents|]. simpl.
  split; rewrite ?pending_tellers_arrivals.
  - constructor.
  - intros i. split; [by intros ?%elem_of_nil|].
    intros (t & [-> _]%lookup_replicate & Hb). done.
  - done.
  - unfold MIN_TELLERS in Hn. destruct n; [lia | done].
Qed.

Lemma start_remaining :
  remaining (contents (start_state input n)) (bankLine (start_state input n))
  = (2 * length input)%nat.
Proof.
  rewrite (remaining_perm _ _ _ start_contents). unfold remaining. simpl.
  induction input as [|a l IH]; simpl in *; lia.
Qed.

Lemma work_expected_arrivals : work_expected (map Arrival input) = total_work input.
Proof. unfold total_work. induction input as [|a l IH]; simpl; [done | by rewrite IH]. Qed.

Lemma work_pending_arrivals T : work_pending T (map Arrival input) = 0.
Proof. induction input; simpl; done. Qed.

Lemma work_done_new : work_done (replicate n Teller.new) = 0.
Proof. induction n as [|k IH]; simpl; [done | by rewrite IH]. Qed.

Lemma start_WInv :
  Forall valid_arrival input ->
  WInv (total_work input) (contents (start_state input n))
       (bankLine (start_state input n)) (tellers (start_state input n)).
Proof.
  intros Hvalid. eapply WInv_perm; [symmetry; apply start_contents|]. simpl.
  split.
  - intros a (a' & [= <-] & Ha)%list_elem_of_fmap.
    by apply (proj1 (Forall_forall _ _) Hvalid).
  - by intros c ?%elem_of_nil.
  - intros e (a & -> & Ha)%list_elem_of_fmap. simpl.
    destruct (proj1 (Forall_forall _ _) Hvalid a Ha) as [? _].
    unfold Int.in_range, Int.INT_MIN, Int.INT_MAX in *. lia.
  - apply Forall_replicate. split; [done|]. by intros since.
  - by intros d (a & [=] & _)%list_elem_of_fmap.
  - rewrite work_done_new, work_pending_arrivals, work_expected_arrivals. simpl. lia.
Qed.

Lemma start_PInv :
  Forall valid_arrival input ->
  PInv (contents (start_state input n))
       (bankLine (start_state input n)) (tellers (start_state input n)).
Proof.
  intros Hvalid. destruct (start_WInv Hvalid) as [H1 H2 _ _ H5 _]. by split.
Qed.

Lemma start_TInv :
  Forall (fun a => arrivalTime a + total_work input <= Int.INT_MAX) input ->
  TInv (contents (start_state input n))
       (bankLine (start_state input n)) (tellers (start_state input n)).
Proof.
  intros Hbound. eapply TInv_perm; [symmetry; apply start_contents|]. simpl.
  split.
  - intros e (a & -> & Ha)%list_elem_of_fmap. simpl.
    rewrite work_expected_arrivals.
    pose proof (proj1 (Forall_forall _ _) Hbound a Ha). simpl in *. lia.
  - by intros d (a & [=] & _)%list_elem_of_fmap.
Qed.

End Start.
End Setup.


(** ** The list queues honour the contract *)

Lemma CompareEvent_false e e' :
  CompareEvent e e' = false <-> get_event_time e <= get_event_time e'.
Proof. unfold CompareEvent. rewrite Z.ltb_ge. done. Qed.

Lemma CompareEvent_true e e' :
  CompareEvent e e' = true <-> get_event_time e' < get_event_time e.
Proof. unfold CompareEvent. rewrite Z.ltb_lt. done. Qed.

Lemma ListQueue_top_pop (l : list Event) :
  l <> [] ->
  exists e, ListQueue.top l = Some e /\ l ≡ₚ e :: ListQueue.pop l /\
            Forall (fun e' => CompareEvent e e' = false) l.
Proof.
  induction l as [|e rest IH]; [done|]. intros _. simpl.
  destruct rest as [|e2 rest].
  { exists e. simpl. split; [done|]. split; [done|].
    constructor; [|done]. by apply CompareEvent_false. }
  destruct IH as (m & -> & Hperm & Hleast); [done|].
  destruct (CompareEvent e m) eqn:Hc.
  - exists m. split; [done|]. split.
    + rewrite Hperm at 1. apply perm_swap.
    + constructor; [|done]. apply CompareEvent_false.
      apply CompareEvent_true in Hc. lia.
  - exists e. split; [done|]. split; [done|].
    apply CompareEvent_false in Hc.
    constructor; [by apply CompareEvent_false|].
    eapply Forall_impl; [exact Hleast|]. intros e'.
    rewrite !CompareEvent_false. lia.
Qed.

Lemma ListQueue_laws : PriorityQueueLaws ListQueue.queue.
Proof.
  split; simpl; try done.
  - intros [|e l] _; split; done.
  - by intros [|e l] _.
  - intros e q _. by rewrite Permutation_app_comm.
  - intros q _ Hq. destruct (ListQueue_top_pop q) as (e & ? & ? & ?).
    { by destruct q. }
    by exists e.
Qed.

Lemma LifoQueue_top_pop (l : list Event) :
  l <> [] ->
  exists e, LifoQueue.top l = Some e /\ l ≡ₚ e :: LifoQueue.pop l /\
            Forall (fun e' => CompareEvent e e' = false) l.
Proof.
  induction l as [|e rest IH]; [done|]. intros _. simpl.
  destruct rest as [|e2 rest].
  { exists e. simpl. split; [done|]. split; [done|].
    constructor; [|done]. by apply CompareEvent_false. }
  destruct IH as (m & -> & Hperm & Hleast); [done|].
  destruct (CompareEvent m e) eqn:Hc.
  - exists e. split; [done|]. split; [done|].
    apply CompareEvent_true in Hc.
    constructor; [by apply CompareEvent_false|].
    eapply Forall_impl; [exact Hleast|]. intros e'.
    rewrite !CompareEvent_false. lia.
  - exists m. split; [done|]. split.
    + rewrite Hperm at 1. apply perm_swap.
    + constructor; [|done]. done.
Qed.

Lemma LifoQueue_laws : PriorityQueueLaws LifoQueue.queue.
Proof.
  split; simpl; try done.
  - intros [|e l] _; split; done.
  - by intros [|e l] _.
  - intros e q _. by rewrite Permutation_app_comm.
  - intros q _ Hq. destruct (LifoQueue_top_pop q) as (e & ? & ? & ?).
    { by destruct q. }
    by exists e.
Qed.


(** ** The binary heap honours the contract *)

Module HeapProofs.
Import HeapQueue.

Ltac Zify.zify_post_hook ::= Z.div_mod_to_equations.

Lemma at_lookup v i default e : v !! i = Some e -> at_ v i default = e.
Proof. unfold at_. by intros ->. Qed.

Lemma push_heap_loop_spec fuel : forall v h x len,
  (h <= fuel)%nat -> (h < len)%nat -> (len <= length v)%nat ->
  hole_heap len v h ->
  (forall i c, (0 < i < len)%nat -> ((i - 1) / 2)%nat = h -> v !! i = Some c ->
     get_event_time x <= get_event_time c) ->
  push_heap_loop fuel v h 0 x ≡ₚ <[h := x]> v /\
  (forall j, (h < j)%nat -> push_heap_loop fuel v h 0 x !! j = v !! j) /\
  heap_upto len (push_heap_loop fuel v h 0 x).
Proof.
  assert (Hstop : forall v h x len,
    (h < len)%nat -> (len <= length v)%nat -> hole_heap len v h ->
    (forall i c, (0 < i < len)%nat -> ((i - 1) / 2)%nat = h -> v !! i = Some c ->
       get_event_time x <= get_event_time c) ->
    ((0 < h)%nat -> forall y, v !! ((h - 1) / 2)%nat = Some y ->
       get_event_time y <= get_event_time x) ->
    <[h := x]> v ≡ₚ <[h := x]> v /\
    (forall j, (h < j)%nat -> <[h := x]> v !! j = v !! j) /\
    heap_upto len (<[h := x]> v)).
  { intros v h x len Hh Hlen [HH1 HH2] Hup Hpar.
    split; [done|]. split.
    { intros j Hj. apply list_lookup_insert_ne. lia. }
    intros i Hi a b Ha Hb.
    destruct (decide (i = h)) as [->|Hih].
    - rewrite list_lookup_insert_eq in Hb by lia. injection Hb as <-.
      rewrite list_lookup_insert_ne in Ha by lia. apply Hpar; [lia | done].
    - rewrite list_lookup_insert_ne in Hb by done.
      destruct (decide (((i - 1) / 2)%nat = h)) as [Hp|Hp].
      + rewrite Hp in Ha. rewrite list_lookup_insert_eq in Ha by lia.
        injection Ha as <-. by eapply Hup.
      + rewrite list_lookup_insert_ne in Ha by done. by eapply HH1. }
  induction fuel as [|fuel IH]; intros v h x len Hfuel Hh Hlen HH Hup.
  - simpl. apply Hstop; try done. lia.
  - cbn [push_heap_loop].
    destruct ((0 <? h)%nat && CompareEvent (at_ v ((h - 1) / 2) x) x) eqn:Hcond.
    + apply andb_true_iff in Hcond as [Hpos Hcmp]. apply Nat.ltb_lt in Hpos.
      destruct (lookup_lt_is_Some_2 v ((h - 1) / 2)%nat) as [y Hy]; [lia|].
      rewrite (at_lookup _ _ _ _ Hy) in *.
      apply CompareEvent_true in Hcmp.
      destruct HH as [HH1 HH2].
      destruct (IH (<[h := y]> v) ((h - 1) / 2)%nat x len) as (Hperm & Hframe & Hheap).
      * lia.
      * lia.
      * by rewrite length_insert.
      * split.
        -- intros i Hi Hne1 Hne2 a b Ha Hb.
           destruct (decide (i = h)) as [->|Hih]; [done|].
           rewrite list_lookup_insert_ne in Hb by done.
           destruct (decide (((i - 1) / 2)%nat = h)) as [Hp|Hp].
           ++ rewrite Hp in Ha. rewrite list_lookup_insert_eq in Ha by lia.
              injection Ha as <-. rewrite <- Hp in Hy.
              apply (HH2 i Hi Hp Hpos y b); [by rewrite Hp in Hy |done].
           ++ rewrite list_lookup_insert_ne in Ha by done. by eapply HH1.
        -- intros i Hi Hp Hpp a b Ha Hb.
           rewrite list_lookup_insert_ne in Ha by lia.
           assert (get_event_time a <= get_event_time y) as Hay.
           { apply (HH1 ((h - 1) / 2)%nat); [lia | lia | lia | done | done]. }
           destruct (decide (i = h)) as [->|Hih].
           ++ rewrite list_lookup_insert_eq in Hb by lia. by injection Hb as <-.
           ++ rewrite list_lookup_insert_ne in Hb by done.
              assert (get_event_time y <= get_event_time b); [|lia].
              apply (HH1 i); [done | done | lia | by rewrite Hp | done].
      * intros i c Hi Hp Hc.
        destruct (decide (i = h)) as [->|Hih].
        -- rewrite list_lookup_insert_eq in Hc by lia. injection Hc as <-. lia.
        -- rewrite list_lookup_insert_ne in Hc by done.
           assert (get_event_time y <= get_event_time c); [|lia].
           apply (HH1 i); [done | done | lia | by rewrite Hp | done].
      * split; [|split; [|done]].
        -- rewrite Hperm.
           rewrite <- (list_insert_insert_eq v h y x).
           apply Permutation_insert_swap.
           ++ apply list_lookup_insert_eq. lia.
           ++ rewrite list_lookup_insert_ne by lia. done.
        -- intros j Hj. rewrite Hframe by lia. apply list_lookup_insert_ne. lia.
    + apply Hstop; try done.
      intros Hpos y Hy. rewrite (at_lookup _ _ _ _ Hy) in Hcond.
      apply Nat.ltb_lt in Hpos. rewrite Hpos in Hcond. simpl in Hcond.
      by apply CompareEvent_false.
Qed.

Lemma hole_swap (v : list Event) h c x y :
  (h < length v)%nat -> h <> c -> v !! c = Some y ->
  <[c := x]> (<[h := y]> v) ≡ₚ <[h := x]> v.
Proof.
  intros Hh Hne Hc.
  rewrite <- (list_insert_insert_eq v h y x).
  apply Permutation_insert_swap.
  - by apply list_lookup_insert_eq.
  - by rewrite list_lookup_insert_ne.
Qed.

(** One step down: the hole takes the place of its child [c], which is
    no greater than the other child. *)
Lemma hole_heap_down len v h c y :
  (len <= length v)%nat -> (c < len)%nat -> ((c - 1) / 2)%nat = h -> (0 < c)%nat ->
  v !! c = Some y ->
  (forall i b, (0 < i < len)%nat -> ((i - 1) / 2)%nat = h -> v !! i = Some b ->
     get_event_time y <= get_event_time b) ->
  hole_heap len v h -> hole_heap len (<[h := y]> v) c.
Proof.
  intros Hlen Hc Hpc Hpos Hy Hmin [HH1 HH2]. split.
  - intros i Hi Hne1 Hne2 a b Ha Hb.
    destruct (decide (i = h)) as [->|Hih].
    + rewrite list_lookup_insert_eq in Hb by lia. injection Hb as <-.
      rewrite list_lookup_insert_ne in Ha by lia.
      apply (HH2 c); [lia | done | lia | done | done].
    + rewrite list_lookup_insert_ne in Hb by done.
      destruct (decide (((i - 1) / 2)%nat = h)) as [Hp|Hp].
      * rewrite Hp in Ha. rewrite list_lookup_insert_eq in Ha by lia.
        injection Ha as <-. by eapply Hmin.
      * rewrite list_lookup_insert_ne in Ha by done. by eapply HH1.
  - intros i Hi Hp _ a b Ha Hb.
    rewrite Hpc in Ha. rewrite list_lookup_insert_eq in Ha by lia.
    injection Ha as <-. rewrite list_lookup_insert_ne in Hb by lia.
    apply (HH1 i); [done | lia | lia | by rewrite Hp | done].
Qed.

Lemma adjust_loop_spec fuel : forall v h len x,
  (len - h <= fuel)%nat -> (h < len)%nat -> (len <= length v)%nat ->
  hole_heap len v h ->
  exists v' h',
    adjust_loop fuel v h h len x = (v', h', h') /\
    (h <= h' < len)%nat /\ ~ (h' < (len - 1) / 2)%nat /\
    hole_heap len v' h' /\
    <[h' := x]> v' ≡ₚ <[h := x]> v /\
    (forall j, (len <= j)%nat -> v' !! j = v !! j).
Proof.
  induction fuel as [|fuel IH]; intros v h len x Hfuel Hh Hlen HH; [lia|].
  cbn [adjust_loop]. destruct (h <? (len - 1) / 2)%nat eqn:Hcond.
  2: { apply Nat.ltb_ge in Hcond. exists v, h.
       split; [done|]. split; [lia|]. split; [lia|]. done. }
  apply Nat.ltb_lt in Hcond.
  destruct (lookup_lt_is_Some_2 v (2 * (h + 1))%nat) as [r Hr]; [lia|].
  destruct (lookup_lt_is_Some_2 v (2 * (h + 1) - 1)%nat) as [l Hl]; [lia|].
  rewrite (at_lookup _ _ _ _ Hr), (at_lookup _ _ _ _ Hl).
  set (c := if CompareEvent r l then (2 * (h + 1) - 1)%nat else (2 * (h + 1))%nat).
  assert (exists y, v !! c = Some y /\ (c = 2 * (h + 1) - 1 \/ c = 2 * (h + 1))%nat /\
            get_event_time y <= get_event_time l /\
            get_event_time y <= get_event_time r) as (y & Hy & Hc & Hyl & Hyr).
  { subst c. destruct (CompareEvent r l) eqn:Hcmp.
    - apply CompareEvent_true in Hcmp. exists l.
      split; [done|]. split; [by left|]. lia.
    - apply CompareEvent_false in Hcmp. exists r.
      split; [done|]. split; [by right|]. lia. }
  rewrite (at_lookup _ _ _ _ Hy).
  destruct (IH (<[h := y]> v) c len x) as (v' & h' & Hloop & Hrange & Hexit & HH' & Hperm & Hframe).
  - lia.
  - lia.
  - by rewrite length_insert.
  - apply hole_heap_down; try done; try lia.
    intros i b Hi Hp Hb.
    assert (i = 2 * (h + 1) - 1 \/ i = 2 * (h + 1))%nat as [-> | ->] by lia.
    + rewrite Hl in Hb. by injection Hb as <-.
    + rewrite Hr in Hb. by injection Hb as <-.
  - exists v', h'. split; [done|]. split; [lia|]. split; [done|]. split; [done|].
    split.
    + rewrite Hperm. apply hole_swap; [lia | lia | done].
    + intros j Hj. rewrite Hframe by done. apply list_lookup_insert_ne. lia.
Qed.

Lemma adjust_heap_spec v len x :
  (0 < len)%nat -> (len <= length v)%nat -> hole_heap len v 0 ->
  adjust_heap v 0 len x ≡ₚ <[0%nat := x]> v /\
  (forall j, (len <= j)%nat -> adjust_heap v 0 len x !! j = v !! j) /\
  heap_upto len (adjust_heap v 0 len x).
Proof.
  intros Hpos Hlen HH. unfold adjust_heap, push_heap_aux.
  destruct (adjust_loop_spec len v 0%nat len x) as
    (v' & h' & -> & Hrange & Hexit & HH' & Hperm & Hframe); try done; try lia.
  assert (length v' = length v) as Hlen'.
  { apply Permutation_length in Hperm. by rewrite !length_insert in Hperm. }
  destruct (Nat.even len && (h' =? (len - 2) / 2)%nat) eqn:Hcond.
  - apply andb_true_iff in Hcond as [Heven Heq].
    apply Nat.even_spec in Heven as [k Hk]. apply Nat.eqb_eq in Heq.
    replace (2 * (h' + 1) - 1)%nat with (len - 1)%nat by lia.
    destruct (lookup_lt_is_Some_2 v' (len - 1)%nat) as [y Hy]; [lia|].
    rewrite (at_lookup _ _ _ _ Hy).
    destruct (push_heap_loop_spec (len - 1) (<[h' := y]> v') (len - 1)%nat x len)
      as (Hperm2 & Hframe2 & Hheap).
    + lia.
    + lia.
    + rewrite length_insert. lia.
    + apply hole_heap_down; try done; try lia.
      intros i b Hi Hp Hb.
      assert (i = len - 1)%nat as -> by lia. rewrite Hy in Hb. by injection Hb as <-.
    + intros i c Hi Hp. lia.
    + split; [|split; [|done]].
      * rewrite Hperm2, <- Hperm. apply hole_swap; [lia | lia | done].
      * intros j Hj. rewrite Hframe2 by lia.
        rewrite list_lookup_insert_ne by lia. by apply Hframe.
  - assert (len <= 2 * h' + 1)%nat as Hleaf.
    { apply andb_false_iff in Hcond as [Hodd|Hne].
      - assert (Nat.odd len = true) as [k Hk]%Nat.odd_spec.
        { by rewrite <- Nat.negb_even, Hodd. }
        lia.
      - apply Nat.eqb_neq in Hne. lia. }
    destruct (push_heap_loop_spec h' v' h' x len)
      as (Hperm2 & Hframe2 & Hheap).
    + lia.
    + lia.
    + lia.
    + done.
    + intros i c Hi Hp. lia.
    + split; [|split; [|done]].
      * by rewrite Hperm2.
      * intros j Hj. rewrite Hframe2 by lia. by apply Hframe.
Qed.

Lemma is_heap_upto v : is_heap v <-> heap_upto (length v) v.
Proof.
  split.
  - intros H i Hi a b Ha Hb. apply CompareEvent_false.
    apply (H i a b ltac:(lia) Ha Hb).
  - intros H i p c Hi Hp Hc. apply CompareEvent_false.
    apply lookup_lt_Some in Hc as Hlt.
    apply (H i ltac:(lia) p c Hp Hc).
Qed.

Lemma heap_upto_take len v : heap_upto len v -> is_heap (take len v).
Proof.
  intros H i p c Hi Hp Hc. apply CompareEvent_false.
  apply lookup_take_Some in Hp as [Hp _]. apply lookup_take_Some in Hc as [Hc Hlt].
  apply (H i ltac:(lia) p c Hp Hc).
Qed.

(** The front of a heap is an event of least time. *)
Lemma is_heap_front v e :
  is_heap v -> v !! 0%nat = Some e ->
  Forall (fun e' => CompareEvent e e' = false) v.
Proof.
  intros Hheap He. apply Forall_lookup. intros i.
  induction (lt_wf i) as [i _ IH]. intros c Hc.
  destruct (decide (i = 0)%nat) as [->|Hne].
  { rewrite He in Hc. injection Hc as <-. by apply CompareEvent_false. }
  destruct (lookup_lt_is_Some_2 v ((i - 1) / 2)%nat) as [p Hp].
  { apply lookup_lt_Some in Hc. lia. }
  pose proof (IH ((i - 1) / 2)%nat ltac:(lia) p Hp) as H1.
  pose proof (Hheap i p c ltac:(lia) Hp Hc) as H2.
  apply CompareEvent_false in H1, H2. apply CompareEvent_false. lia.
Qed.

Lemma push_spec e v :
  is_heap v -> is_heap (push e v) /\ push e v ≡ₚ e :: v.
Proof.
  intros Hheap. unfold push, push_heap, push_heap_aux.
  rewrite last_snoc. rewrite length_app. simpl.
  replace (length v + 1 - 1)%nat with (length v) by lia.
  destruct (push_heap_loop_spec (length v) (v ++ [e]) (length v) e (S (length v)))
    as (Hperm & _ & Hheap').
  - lia.
  - lia.
  - rewrite length_app. simpl. lia.
  - apply is_heap_upto in Hheap. split.
    + intros i Hi Hne1 Hne2 a b Ha Hb.
      rewrite lookup_app_l in Ha by lia. rewrite lookup_app_l in Hb by lia.
      apply (Hheap i ltac:(lia) a b Ha Hb).
    + intros i Hi Hp. lia.
  - intros i c Hi Hp. lia.
  - assert (<[length v := e]> (v ++ [e]) = v ++ [e]) as Hid.
    { apply list_insert_id. by rewrite lookup_app_r, Nat.sub_diag. }
    rewrite Hid in Hperm. split.
    + apply is_heap_upto. apply Permutation_length in Hperm as Hl.
      rewrite Hl, length_app. simpl.
      by replace (length v + 1)%nat with (S (length v)) by lia.
    + rewrite Hperm. by rewrite Permutation_app_comm.
Qed.

Lemma pop_spec v e :
  is_heap v -> v !! 0%nat = Some e ->
  is_heap (pop v) /\ v ≡ₚ e :: pop v.
Proof.
  intros Hheap He. unfold pop, pop_heap.
  destruct (1 <? length v)%nat eqn:Hlen.
  2: { apply Nat.ltb_ge in Hlen. destruct v as [|e' [|? ?]]; simpl in *; [done| |lia].
       injection He as ->. split; [|done]. intros i p c _ Hp. done. }
  apply Nat.ltb_lt in Hlen.
  destruct (lookup_lt_is_Some_2 v (length v - 1)%nat) as [x Hx]; [lia|].
  rewrite Hx, He.
  set (len := (length v - 1)%nat) in *.
  destruct (adjust_heap_spec (<[len := e]> v) len x) as (Hperm & Hframe & Hheap').
  - lia.
  - rewrite length_insert. lia.
  - apply is_heap_upto in Hheap. split.
    + intros i Hi Hne1 Hne2 a b Ha Hb.
      rewrite list_lookup_insert_ne in Ha by lia.
      rewrite list_lookup_insert_ne in Hb by lia.
      apply (Hheap i ltac:(lia) a b Ha Hb).
    + intros i Hi Hp. lia.
  - set (u := adjust_heap (<[len := e]> v) 0 len x) in *.
    assert (u ≡ₚ v) as Hperm'.
    { rewrite Hperm. by apply Permutation_insert_swap. }
    assert (length u = S len) as Hlu.
    { apply Permutation_length in Hperm'. lia. }
    assert (u = take len u ++ [e]) as Hu.
    { rewrite <- (take_drop len u) at 1. f_equal.
      apply list_eq. intros j. rewrite lookup_drop.
      destruct j as [|j]; simpl.
      - rewrite Nat.add_0_r, Hframe by lia.
        apply list_lookup_insert_eq. lia.
      - apply lookup_ge_None_2. lia. }
    assert (removelast u = take len u) as ->.
    { rewrite Hu at 1. apply removelast_last. }
    split; [by apply heap_upto_take|].
    rewrite <- Hperm'. rewrite Hu at 1. by rewrite Permutation_app_comm.
Qed.

End HeapProofs.

Lemma HeapQueue_laws : PriorityQueueLaws HeapQueue.queue.
Proof.
  split; simpl.
  - by intros i p c _ Hp.
  - done.
  - intros [|e v] _; split; done.
  - by intros [|e v] _.
  - intros e q Hq. by apply HeapProofs.push_spec.
  - intros e q Hq. by apply HeapProofs.push_spec.
  - intros [|e v] Hq Hne; [done|]. exists e. split; [done|].
    destruct (HeapProofs.pop_spec (e :: v) e Hq) as [Hheap Hperm]; [done|].
    split; [done|]. split; [done|]. by apply HeapProofs.is_heap_front.
Qed.

(** ** Whole runs from a ready engine *)

Section WholeRun.
Context {Q : PriorityQueue} (HQ : PriorityQueueLaws Q).
Implicit Types s : BankSim3000 Q.

Lemma length_tellers_GRun s log s' :
  GRun s log s' -> length (tellers s') = length (tellers s).
Proof.
  intros Hrun.
  apply (GRun_invariant (fun _ _ T => length T = length (tellers s)) s log s');
    try done.
  intros e C L T pushed L' T' HT. inversion 1; subst; by rewrite ?length_insert.
Qed.

Lemma run_complete input n fuel :
  valid_count n -> (2 * length input <= fuel)%nat ->
  exists log s',
    runSimulationLog fuel (start_state input n) = (inr log, s') /\
    runSimulation fuel (start_state input n) = (inr tt, s') /\
    GRun (start_state input n) log s' /\
    length log = (2 * length input)%nat /\
    ready s' /\ simulationInput s' = input /\ length (tellers s') = n /\
    Forall (fun t => Teller.isAvailable t = true) (tellers s').
Proof.
  intros [Hn _] Hfuel.
  pose proof (start_wf HQ input n) as Hwf.
  pose proof (start_SInv HQ input n Hn) as HS.
  destruct (runSimulationLog_total HQ fuel _ Hwf HS) as (log & s' & Hrun & HG & Hlen).
  { by rewrite start_remaining. }
  rewrite start_remaining in Hlen by done.
  destruct (GRun_end _ _ _ HG Hwf) as (Hc & Hwf' & Hin).
  pose proof (GRun_SInv _ _ _ HG HS) as HS'.
  destruct (SInv_final _ _ _ HS') as [HL Hidle]; [by rewrite Hc|].
  exists log, s'. split; [done|]. split.
  { rewrite runSimulation_log, Hrun. done. }
  split; [done|]. split; [done|]. split.
  { split; [done|]. split; [|done]. by apply (pq_empty_spec Q HQ). }
  split; [done|]. split; [|done].
  rewrite (length_tellers_GRun _ _ _ HG). simpl. apply length_replicate.
Qed.


Lemma simulate_unfold fuel n s s0 s' :
  setupSimulation n s = (inr tt, s0) ->
  runSimulation fuel s0 = (inr tt, s') ->
  simulate fuel n s = (inr (map Teller.elapsedTimeWorking (tellers s')), s') /\
  maxTellerBusyTime fuel n s =
    (SimulationResults.maxTellerBusyTime
       (map Teller.elapsedTimeWorking (tellers s')), s').
Proof.
  intros H1 H2. unfold simulate, maxTellerBusyTime, gatherResults. msimpl.
  by rewrite H1, H2.
Qed.

Lemma work_done_sumZ T : work_done T = sumZ (map Teller.elapsedTimeWorking T).
Proof. induction T as [|t T IH]; simpl; [done | by rewrite IH]. Qed.

(** The work done at the end of a run is the work of the input. *)
Lemma run_work input n log s' :
  valid_count n -> Forall valid_arrival input ->
  total_work input <= Int.INT_MAX ->
  GRun (start_state input n) log s' ->
  work_done (tellers s') = total_work input /\ Forall teller_ok (tellers s').
Proof.
  intros [Hn _] Hvalid Htotal HG.
  pose proof (start_wf HQ input n) as Hwf.
  pose proof (start_SInv HQ input n Hn) as HS.
  pose proof (start_WInv HQ input n Hvalid) as HW.
  destruct (GRun_end _ _ _ HG Hwf) as (Hc & Hwf' & Hin).
  pose proof (GRun_SInv _ _ _ HG HS) as HS'.
  destruct (SInv_final _ _ _ HS') as [HL Hidle]; [by rewrite Hc|].
  destruct (GRun_WInv _ _ _ _ Htotal HG HS HW) as [_ _ _ H4 _ H6].
  rewrite Hc, HL in H6. simpl in H6. split; [lia | done].
Qed.

(** A call of [maxTellerBusyTime] leaves the engine ready for the next. *)
Lemma maxTellerBusyTime_ready fuel n s :
  ready s -> (2 * length (simulationInput s) <= fuel)%nat ->
  ready (maxTellerBusyTime fuel n s).2 /\
  simulationInput (maxTellerBusyTime fuel n s).2 = simulationInput s.
Proof.
  intros Hready Hfuel.
  destruct (decide (valid_count n)) as [Hn|Hn].
  - destruct (run_complete (simulationInput s) n fuel Hn Hfuel)
      as (log & s' & _ & Hrun & _ & _ & Hready' & Hin & _).
    pose proof (setupSimulation_valid HQ n s Hn Hready) as Hsetup.
    destruct (simulate_unfold fuel n s _ s' Hsetup Hrun) as [_ ->]. done.
  - destruct (setupSimulation_invalid n s) as [what Hsetup].
    { unfold valid_count in Hn. lia. }
    unfold maxTellerBusyTime. msimpl. by rewrite Hsetup.
Qed.

Lemma reachable_ready input s :
  reachable input s -> ready s /\ simulationInput s = input.
Proof.
  induction 1 as [|s n fuel _ [IH1 IH2] Hfuel].
  - split; [by apply ready_new | done].
  - rewrite <- IH2 in Hfuel.
    destruct (maxTellerBusyTime_ready fuel n s IH1 Hfuel) as [? ->]. done.
Qed.

End WholeRun.

(** The largest of non-negative numbers is no more than their sum. *)
Lemma foldl_max_le_sum (x : Z) (l : list Z) :
  0 <= x -> Forall (fun y => 0 <= y) l -> foldl Z.max x l <= x + sumZ l.
Proof.
  revert x. induction l as [|y l IH]; intros x Hx Hl; simpl; [lia|].
  apply Forall_cons in Hl as [Hy Hl].
  specialize (IH (Z.max x y) ltac:(lia) Hl). unfold sumZ in *. lia.
Qed.

Lemma total_work_bound input :
  Forall valid_arrival input ->
  Forall (fun a => arrivalTime a + total_work input <= Int.INT_MAX) input ->
  total_work input <= Int.INT_MAX.
Proof.
  intros Hv Hb. destruct input as [|a l]; [done|].
  apply Forall_cons in Hv as [[Ha _] _]. apply Forall_cons in Hb as [Hb _]. lia.
Qed.

(** Fuel beyond what a run needs changes nothing. *)
Lemma maxTellerBusyTime_fuel {Q : PriorityQueue} fuel fuel' n (s : BankSim3000 Q) v s' :
  maxTellerBusyTime fuel n s = (inr v, s') -> (fuel <= fuel')%nat ->
  maxTellerBusyTime fuel' n s = (inr v, s').
Proof.
  unfold maxTellerBusyTime. msimpl.
  destruct (setupSimulation n s) as [[err|[]] s0]; [done|].
  rewrite !runSimulation_log.
  destruct (runSimulationLog fuel s0) as [[err|log] s1] eqn:Hrun; simpl; [done|].
  intros H Hle. by rewrite (runSimulationLog_fuel _ _ _ _ _ Hrun Hle).
Qed.

Lemma simulate_fuel {Q : PriorityQueue} fuel fuel' n (s : BankSim3000 Q) v s' :
  simulate fuel n s = (inr v, s') -> (fuel <= fuel')%nat ->
  simulate fuel' n s = (inr v, s').
Proof.
  unfold simulate. msimpl.
  destruct (setupSimulation n s) as [[err|[]] s0]; [done|].
  rewrite !runSimulation_log.
  destruct (runSimulationLog fuel s0) as [[err|log] s1] eqn:Hrun; simpl; [done|].
  intros H Hle. by rewrite (runSimulationLog_fuel _ _ _ _ _ Hrun Hle).
Qed.


(** ** The traces cover every queue *)

Lemma gstep_gproc L T e pushed L' T' :
  gstep L T e pushed L' T' -> gproc e L T = Some (pushed, L', T').
Proof.
  inversion 1 as [L0 T0 a i t Hs Ht | L0 T0 a Hs | T0 d t t' Ht Hstop
                 | c L0 T0 d t t' Ht Hstop]; subst; simpl.
  - by rewrite Hs, Ht.
  - by rewrite Hs.
  - rewrite Ht. simpl. by rewrite Hstop.
  - rewrite Ht. simpl. by rewrite Hstop.
Qed.

Lemma selections_elem_of {A} (l : list A) (x : A) :
  x ∈ l -> exists r, (x, r) ∈ selections l /\ l ≡ₚ x :: r.
Proof.
  induction l as [|y l IH]; [by intros ?%elem_of_nil|].
  intros [->|Hx]%elem_of_cons.
  - exists l. split; [by left | done].
  - destruct (IH Hx) as (r & Hr & Hperm). exists (y :: r). split.
    + simpl. right. apply list_elem_of_fmap. by exists (x, r).
    + rewrite Hperm. apply perm_swap.
Qed.

Lemma least_spec e C :
  Forall (fun e' => get_event_time e <= get_event_time e') C -> least e C = true.
Proof.
  intros H. unfold least. apply forallb_forall. intros e' He'.
  apply list_elem_of_In in He'.
  pose proof (proj1 (Forall_forall _ _) H e' He').
  apply negb_true_iff. by apply CompareEvent_false.
Qed.

Section Outcomes.
Context {Q : PriorityQueue}.

Lemma GRun_traces (s : BankSim3000 Q) log s' :
  GRun s log s' ->
  forall fuel C, C ≡ₚ contents s -> (length log <= fuel)%nat ->
    (map fst log, tellers s') ∈ traces fuel C (bankLine s) (tellers s).
Proof.
  induction 1 as [s Hc|s e C' pushed s2 log s' Hit _ IH]; intros fuel C HC Hfuel.
  - rewrite Hc in HC. apply Permutation_nil_r in HC as ->.
    destruct fuel; simpl; by left.
  - destruct Hit as [H1 H2 H3 H4 _ _]. rewrite H1 in HC.
    destruct fuel as [|fuel]; [simpl in Hfuel; lia|].
    destruct (selections_elem_of C e) as (r & Hr & Hperm).
    { rewrite HC. by left. }
    assert (r ≡ₚ C') as Hr'.
    { apply (Permutation_cons_inv (a:=e)). by rewrite <- Hperm. }
    destruct C as [|e0 C0]; [by apply Permutation_nil_cons in Hperm|].
    cbn [traces]. apply list_elem_of_bind. exists (e, r). split; [|done].
    cbn [fst snd]. rewrite least_spec.
    2: { rewrite HC. constructor; [lia | done]. }
    rewrite (gstep_gproc _ _ _ _ _ _ H3).
    apply (list_elem_of_fmap_2 (fun r0 => (e :: r0.1, r0.2))
             _ (map fst log, tellers s')).
    apply IH; [|simpl in Hfuel; lia]. by rewrite H4, Hr'.
Qed.

End Outcomes.


Lemma main_figures_fuel {Q : PriorityQueue} fuel fuel' (s : BankSim3000 Q) v s' :
  main_figures fuel s = (inr v, s') -> (fuel <= fuel')%nat ->
  main_figures fuel' s = (inr v, s').
Proof.
  intros Hmain Hle. unfold main_figures in *. msimpl.
  repeat match type of Hmain with
  | context [maxTellerBusyTime fuel ?n ?s0] =>
      let Hm := fresh "Hm" in
      destruct (maxTellerBusyTime fuel n s0) as [[?|?] ?] eqn:Hm; [done|];
      rewrite (maxTellerBusyTime_fuel _ _ _ _ _ _ Hm Hle)
  end.
  done.
Qed.


(** * Properties of the engine *)

(** C1 (as amended).  For every input of arrival events whose arrival and
    transaction times are non-negative [int]s and whose transaction times
    total at most [INT_MAX], and every teller count in [1,5], a run from a
    ready engine completes with an empty event queue, and the sum over all
    tellers of [elapsedTimeWorking()] equals the sum over all arrival
    events of their [transactionTime]. *)
Theorem work_is_conserved (Q : PriorityQueue) (s : BankSim3000 Q)
    (tellerCount fuel : nat) :
  PriorityQueueLaws Q -> ready s ->
  Forall valid_arrival (simulationInput s) ->
  total_work (simulationInput s) <= Int.INT_MAX ->
  valid_count tellerCount ->
  (2 * length (simulationInput s) <= fuel)%nat ->
  exists results s',
    simulate fuel tellerCount s = (inr results, s') /\
    pq_empty Q (eventQueue s') = true /\
    results = map Teller.elapsedTimeWorking (tellers s') /\
    sumZ results = total_work (simulationInput s).
Proof.
  intros HQ Hready Hvalid Htotal Hn Hfuel.
  destruct (run_complete HQ (simulationInput s) tellerCount fuel Hn Hfuel)
    as (log & s' & Hlog & Hrun & HG & _ & (_ & Hempty & _) & _).
  pose proof (setupSimulation_valid HQ tellerCount s Hn Hready) as Hsetup.
  destruct (simulate_unfold fuel tellerCount s _ s' Hsetup Hrun) as [Hsim _].
  destruct (run_work HQ _ _ _ _ Hn Hvalid Htotal HG) as [Hwork _].
  exists (map Teller.elapsedTimeWorking (tellers s')), s'.
  split; [done|]. split; [done|]. split; [done|]. by rewrite <- work_done_sumZ.
Qed.

Lemma work_is_conserved_witness :
  exists results s',
    simulate (Q:=HeapQueue.queue) 8 2 (new SimulationInput00) = (inr results, s') /\
    pq_empty HeapQueue.queue (eventQueue s') = true /\
    results = map Teller.elapsedTimeWorking (tellers s') /\
    sumZ results = total_work SimulationInput00.
Proof.
  apply (work_is_conserved HeapQueue.queue (new SimulationInput00) 2 8).
  - exact HeapQueue_laws.
  - exact (ready_new SimulationInput00 HeapQueue_laws).
  - repeat constructor; vm_compute; congruence.
  - vm_compute; congruence.
  - split; vm_compute; lia.
  - simpl; lia.
Defined.

(** C1 as stated fails where the busy time wraps: one teller serving
    transactions of 2147483647 and 1 time units ends with an accumulator
    of -2147483648, while the transaction times total 2147483648. *)
Lemma work_not_conserved_on_overflow :
  let input := [ {| arrivalTime := 0; transactionTime := 2147483647 |};
                 {| arrivalTime := 0; transactionTime := 1 |} ] in
  Forall valid_arrival input /\ valid_count 1 /\
  (simulate (Q:=HeapQueue.queue) 4 1 (new input)).1 = inr [-2147483648] /\
  (simulate (Q:=ListQueue.queue) 4 1 (new input)).1 = inr [-2147483648] /\
  sumZ [-2147483648] <> total_work input.
Proof.
  split; [repeat constructor; vm_compute; congruence|].
  split; [split; vm_compute; lia|].
  split; [by vm_compute|]. split; [by vm_compute|]. by vm_compute.
Qed.

(** C2 (as amended).  For the reference input {(20,6), (22,4), (23,2),
    (30,3)} and 2 tellers the peak busy time is 11 with the binary heap of
    the priority queue (busy times 11 and 4), also as the second figure of
    [main]; with any queue that honours the container's contract the run
    completes and the peak is 9 or 11, according to which of the two
    departures due at time 26 is removed first: it is 9 exactly when
    teller 1's departure is removed before teller 0's, and 11 exactly when
    teller 0's is removed before teller 1's (11 when ties leave in
    insertion order, 9 in the reverse order). *)
Theorem reference_trace_two_tellers (Q : PriorityQueue) (fuel : nat) :
  PriorityQueueLaws Q -> (8 <= fuel)%nat ->
  (simulate (Q:=HeapQueue.queue) fuel 2 (new SimulationInput00)).1 = inr [11; 4] /\
  (maxTellerBusyTime (Q:=HeapQueue.queue) fuel 2 (new SimulationInput00)).1
    = inr 11 /\
  (main_figures (Q:=HeapQueue.queue) fuel (new SimulationInput00)).1
    = inr [15; 11; 9; 9; 9] /\
  (maxTellerBusyTime (Q:=ListQueue.queue) fuel 2 (new SimulationInput00)).1
    = inr 11 /\
  (maxTellerBusyTime (Q:=LifoQueue.queue) fuel 2 (new SimulationInput00)).1
    = inr 9 /\
  exists peak log s',
    maxTellerBusyTime (Q:=Q) fuel 2 (new SimulationInput00) = (inr peak, s') /\
    runSimulationLog fuel (setupSimulation 2 (new SimulationInput00)).2
      = (inr log, s') /\
    (peak = 9 \/ peak = 11) /\
    (peak = 9 <->
       removed_before (Departure {| departureTime := 26; tellerIndex := 1 |})
                      (Departure {| departureTime := 26; tellerIndex := 0 |})
                      (map fst log)) /\
    (peak = 11 <->
       removed_before (Departure {| departureTime := 26; tellerIndex := 0 |})
                      (Departure {| departureTime := 26; tellerIndex := 1 |})
                      (map fst log)).
Proof.
  intros HQ Hfuel. split; [|split; [|split; [|split; [|split]]]].
  - destruct (simulate (Q:=HeapQueue.queue) 8 2 (new SimulationInput00))
      as [r s'] eqn:Hsim.
    assert (r = inr [11; 4]) as -> by (by vm_compute in Hsim; injection Hsim as <- _).
    by rewrite (simulate_fuel _ _ _ _ _ _ Hsim Hfuel).
  - destruct (maxTellerBusyTime (Q:=HeapQueue.queue) 8 2 (new SimulationInput00))
      as [r s'] eqn:Hmax.
    assert (r = inr 11) as -> by (by vm_compute in Hmax; injection Hmax as <- _).
    by rewrite (maxTellerBusyTime_fuel _ _ _ _ _ _ Hmax Hfuel).
  - destruct (main_figures (Q:=HeapQueue.queue) 8 (new SimulationInput00))
      as [r s'] eqn:Hmain.
    assert (r = inr [15; 11; 9; 9; 9]) as ->
      by (by vm_compute in Hmain; injection Hmain as <- _).
    by rewrite (main_figures_fuel _ _ _ _ _ Hmain Hfuel).
  - destruct (maxTellerBusyTime (Q:=ListQueue.queue) 8 2 (new SimulationInput00))
      as [r s'] eqn:Hmax.
    assert (r = inr 11) as -> by (by vm_compute in Hmax; injection Hmax as <- _).
    by rewrite (maxTellerBusyTime_fuel _ _ _ _ _ _ Hmax Hfuel).
  - destruct (maxTellerBusyTime (Q:=LifoQueue.queue) 8 2 (new SimulationInput00))
      as [r s'] eqn:Hmax.
    assert (r = inr 9) as -> by (by vm_compute in Hmax; injection Hmax as <- _).
    by rewrite (maxTellerBusyTime_fuel _ _ _ _ _ _ Hmax Hfuel).
  - assert (valid_count 2) as H2 by (split; vm_compute; lia).
    pose proof (ready_new SimulationInput00 HQ) as Hready.
    destruct (run_complete HQ SimulationInput00 2 fuel H2 Hfuel)
      as (log & s' & Hlog & Hrun & HG & Hlen & _).
    pose proof (setupSimulation_valid HQ _ _ H2 Hready) as Hsetup.
    destruct (simulate_unfold fuel 2 (new SimulationInput00) _ s' Hsetup Hrun)
      as [_ Hmax].
    assert ((map fst log, tellers s') ∈
              [ ([ Arrival {| arrivalTime := 20; transactionTime := 6 |};
                   Arrival {| arrivalTime := 22; transactionTime := 4 |};
                   Arrival {| arrivalTime := 23; transactionTime := 2 |};
                   Departure {| departureTime := 26; tellerIndex := 1 |};
                   Departure {| departureTime := 26; tellerIndex := 0 |};
                   Departure {| departureTime := 28; tellerIndex := 1 |};
                   Arrival {| arrivalTime := 30; transactionTime := 3 |};
                   Departure {| departureTime := 33; tellerIndex := 0 |} ],
                 [ {| startBusy := None; elapsedTimeBusy := 9 |};
                   {| startBusy := None; elapsedTimeBusy := 6 |} ]);
                ([ Arrival {| arrivalTime := 20; transactionTime := 6 |};
                   Arrival {| arrivalTime := 22; transactionTime := 4 |};
                   Arrival {| arrivalTime := 23; transactionTime := 2 |};
                   Departure {| departureTime := 26; tellerIndex := 0 |};
                   Departure {| departureTime := 26; tellerIndex := 1 |};
                   Departure {| departureTime := 28; tellerIndex := 0 |};
                   Arrival {| arrivalTime := 30; transactionTime := 3 |};
                   Departure {| departureTime := 33; tellerIndex := 0 |} ],
                 [ {| startBusy := None; elapsedTimeBusy := 11 |};
                   {| startBusy := None; elapsedTimeBusy := 4 |} ]) ]) as Hout.
    { apply (GRun_traces _ _ _ HG 8%nat (map Arrival SimulationInput00)).
      - symmetry. apply (start_contents HQ).
      - rewrite Hlen. simpl. lia. }
    rewrite Hmax, Hsetup. cbn [snd].
    apply elem_of_cons in Hout as [Hout|Hout];
      [|apply list_elem_of_singleton in Hout];
      injection Hout as Hev HT; rewrite HT.
    + exists 9, log, s'. rewrite Hev.
      split; [done|]. split; [done|]. split; [by left|]. split; split.
      * intros _. exists 3%nat, 4%nat. split; [lia | done].
      * done.
      * done.
      * intros (i & j & Hlt & Hi & Hj).
        do 9 (try (destruct i as [|i]; [|simpl in Hi]; try done));
          do 9 (try (destruct j as [|j]; [|simpl in Hj]; try done)); lia.
    + exists 11, log, s'. rewrite Hev.
      split; [done|]. split; [done|]. split; [by right|]. split; split.
      * done.
      * intros (i & j & Hlt & Hi & Hj).
        do 9 (try (destruct i as [|i]; [|simpl in Hi]; try done));
          do 9 (try (destruct j as [|j]; [|simpl in Hj]; try done)); lia.
      * intros _. exists 3%nat, 4%nat. split; [lia | done].
      * done.
Qed.

Lemma reference_trace_two_tellers_witness :
  (simulate (Q:=HeapQueue.queue) 8 2 (new SimulationInput00)).1 = inr [11; 4] /\
  (maxTellerBusyTime (Q:=HeapQueue.queue) 8 2 (new SimulationInput00)).1
    = inr 11 /\
  (main_figures (Q:=HeapQueue.queue) 8 (new SimulationInput00)).1
    = inr [15; 11; 9; 9; 9] /\
  (maxTellerBusyTime (Q:=ListQueue.queue) 8 2 (new SimulationInput00)).1
    = inr 11 /\
  (maxTellerBusyTime (Q:=LifoQueue.queue) 8 2 (new SimulationInput00)).1
    = inr 9 /\
  exists peak log s',
    maxTellerBusyTime (Q:=HeapQueue.queue) 8 2 (new SimulationInput00)
      = (inr peak, s') /\
    runSimulationLog (Q:=HeapQueue.queue) 8
      (setupSimulation 2 (new SimulationInput00)).2 = (inr log, s') /\
    (peak = 9 \/ peak = 11) /\
    (peak = 9 <->
       removed_before (Departure {| departureTime := 26; tellerIndex := 1 |})
                      (Departure {| departureTime := 26; tellerIndex := 0 |})
                      (map fst log)) /\
    (peak = 11 <->
       removed_before (Departure {| departureTime := 26; tellerIndex := 0 |})
                      (Departure {| departureTime := 26; tellerIndex := 1 |})
                      (map fst log)).
Proof.
  apply (reference_trace_two_tellers HeapQueue.queue 8).
  - exact HeapQueue_laws.
  - lia.
Defined.

(** C2 as stated fails: with 2 tellers the engine reports 11, not 9.  The
    departures of tellers 0 and 1 are both due at 26; teller 0's is
    removed first and takes the waiting customer (23,2), and teller 0,
    idle again at 28, also serves the arrival at 30: 6 + 2 + 3 = 11. *)
Lemma reference_trace_two_tellers_is_not_9 :
  (maxTellerBusyTime (Q:=HeapQueue.queue) 8 2 (new SimulationInput00)).1
    = inr 11 /\
  (maxTellerBusyTime (Q:=HeapQueue.queue) 8 2 (new SimulationInput00)).1
    <> inr 9 /\
  map (fun p => p.1)
      (match (runSimulationLog (Q:=HeapQueue.queue) 8
                (setupSimulation 2 (new SimulationInput00)).2).1 with
       | inr log => log
       | inl _ => []
       end)
  = [ Arrival {| arrivalTime := 20; transactionTime := 6 |};
      Arrival {| arrivalTime := 22; transactionTime := 4 |};
      Arrival {| arrivalTime := 23; transactionTime := 2 |};
      Departure {| departureTime := 26; tellerIndex := 0 |};
      Departure {| departureTime := 26; tellerIndex := 1 |};
      Departure {| departureTime := 28; tellerIndex := 0 |};
      Arrival {| arrivalTime := 30; transactionTime := 3 |};
      Departure {| departureTime := 33; tellerIndex := 0 |} ].
Proof. split; [by vm_compute|]. split; by vm_compute. Qed.

(** C3.  [setupSimulation], also when reached through
    [maxTellerBusyTime], throws [invalid_argument] for a teller count
    below 1 or above 5 and leaves the engine (event queue, bank line,
    teller pool, stored input) as it was; for a count in [1,5] it never
    throws [invalid_argument], and it returns normally on a ready engine,
    which is what the constructor and every completed call of
    [maxTellerBusyTime] leave. *)
Theorem teller_count_is_checked_first (Q : PriorityQueue) (s : BankSim3000 Q)
    (tellerCount : nat) :
  ((tellerCount < MIN_TELLERS \/ MAX_TELLERS < tellerCount)%nat ->
     exists what,
       setupSimulation tellerCount s = (inl (invalid_argument what), s) /\
       forall fuel,
         maxTellerBusyTime fuel tellerCount s = (inl (invalid_argument what), s)) /\
  (valid_count tellerCount ->
     (forall what,
        (setupSimulation tellerCount s).1 <> inl (invalid_argument what)) /\
     (PriorityQueueLaws Q -> ready s ->
        exists s0, setupSimulation tellerCount s = (inr tt, s0)) /\
     (PriorityQueueLaws Q -> forall input, reachable input s ->
        exists s0, setupSimulation tellerCount s = (inr tt, s0))).
Proof.
  split.
  - intros Hn. destruct (setupSimulation_invalid tellerCount s Hn) as [what Hsetup].
    exists what. split; [done|]. intros fuel.
    unfold maxTellerBusyTime. msimpl. by rewrite Hsetup.
  - intros Hn. split; [|split].
    + intros what. by apply setupSimulation_not_invalid.
    + intros HQ Hready. eexists. by apply setupSimulation_valid.
    + intros HQ input [Hready _]%(reachable_ready HQ).
      eexists. by apply setupSimulation_valid.
Qed.

Lemma teller_count_is_checked_first_witness :
  let s := (maxTellerBusyTime (Q:=HeapQueue.queue) 8 2 (new SimulationInput00)).2 in
  (exists what,
     setupSimulation 0 s = (inl (invalid_argument what), s) /\
     forall fuel, maxTellerBusyTime fuel 0 s = (inl (invalid_argument what), s)) /\
  (exists what,
     setupSimulation 6 s = (inl (invalid_argument what), s) /\
     forall fuel, maxTellerBusyTime fuel 6 s = (inl (invalid_argument what), s)) /\
  (exists s0,
     setupSimulation (Q:=HeapQueue.queue) 5 (new SimulationInput00) = (inr tt, s0)) /\
  (exists s0, setupSimulation 5 s = (inr tt, s0)).
Proof.
  intros s. split; [|split; [|split]].
  - apply (teller_count_is_checked_first HeapQueue.queue s 0).
    left. unfold MIN_TELLERS. lia.
  - apply (teller_count_is_checked_first HeapQueue.queue s 6).
    right. unfold MAX_TELLERS. lia.
  - apply (teller_count_is_checked_first HeapQueue.queue (new SimulationInput00) 5).
    + split; vm_compute; lia.
    + exact HeapQueue_laws.
    + exact (ready_new SimulationInput00 HeapQueue_laws).
  - assert (valid_count 5) as H5 by (split; vm_compute; lia).
    apply (proj2 (proj2 (proj2 (teller_count_is_checked_first
                                  HeapQueue.queue s 5) H5))
             HeapQueue_laws SimulationInput00).
    apply (reachable_run SimulationInput00 _ 2 8); [apply reachable_new|].
    simpl. lia.
Defined.

(** C4 (as amended).  For every input whose times are non-negative [int]s
    and whose transaction times total at most [INT_MAX], and every teller
    count N in [1,5], the peak busy time reported for N tellers is no more
    than the peak reported for 1 teller on the same input. *)
Theorem peak_at_most_single_teller (Q : PriorityQueue) (s : BankSim3000 Q)
    (tellerCount fuel : nat) :
  PriorityQueueLaws Q -> ready s ->
  Forall valid_arrival (simulationInput s) ->
  total_work (simulationInput s) <= Int.INT_MAX ->
  valid_count tellerCount ->
  (2 * length (simulationInput s) <= fuel)%nat ->
  exists peakN sN peak1 s1,
    maxTellerBusyTime fuel tellerCount s = (inr peakN, sN) /\
    maxTellerBusyTime fuel 1 s = (inr peak1, s1) /\
    peakN <= peak1.
Proof.
  intros HQ Hready Hvalid Htotal Hn Hfuel.
  assert (valid_count 1) as H1 by (split; unfold MIN_TELLERS, MAX_TELLERS; lia).
  destruct (run_complete HQ (simulationInput s) tellerCount fuel Hn Hfuel)
    as (logN & sN & _ & HrunN & HGN & _ & _ & _ & HlenN & _).
  destruct (run_complete HQ (simulationInput s) 1 fuel H1 Hfuel)
    as (log1 & s1 & _ & Hrun1 & HG1 & _ & _ & _ & Hlen1 & _).
  destruct (simulate_unfold fuel tellerCount s _ sN
              (setupSimulation_valid HQ _ s Hn Hready) HrunN) as [_ HmaxN].
  destruct (simulate_unfold fuel 1 s _ s1
              (setupSimulation_valid HQ _ s H1 Hready) Hrun1) as [_ Hmax1].
  destruct (run_work HQ _ _ _ _ Hn Hvalid Htotal HGN) as [HworkN HokN].
  destruct (run_work HQ _ _ _ _ H1 Hvalid Htotal HG1) as [Hwork1 _].
  destruct (tellers s1) as [|t1 [|? ?]]; try done.
  destruct (tellers sN) as [|tN TN].
  { destruct Hn as [Hn _]. unfold MIN_TELLERS in Hn. simpl in HlenN. lia. }
  simpl in Hmax1, HmaxN, Hwork1, HworkN.
  do 4 eexists. split; [exact HmaxN|]. split; [exact Hmax1|].
  apply Forall_cons in HokN as [[HtN _] HokN].
  unfold Teller.elapsedTimeWorking.
  etrans; [apply foldl_max_le_sum; [done|]|].
  - apply Forall_fmap. eapply Forall_impl; [exact HokN|]. by intros t [? _].
  - rewrite <- work_done_sumZ. lia.
Qed.

Lemma peak_at_most_single_teller_witness :
  exists peakN sN peak1 s1,
    maxTellerBusyTime (Q:=HeapQueue.queue) 8 2 (new SimulationInput00)
      = (inr peakN, sN) /\
    maxTellerBusyTime (Q:=HeapQueue.queue) 8 1 (new SimulationInput00)
      = (inr peak1, s1) /\
    peakN <= peak1.
Proof.
  apply (peak_at_most_single_teller HeapQueue.queue (new SimulationInput00) 2 8).
  - exact HeapQueue_laws.
  - exact (ready_new SimulationInput00 HeapQueue_laws).
  - repeat constructor; vm_compute; congruence.
  - vm_compute; congruence.
  - split; vm_compute; lia.
  - simpl; lia.
Defined.

(** C4 as stated fails where the busy time wraps: for transactions of
    2147483647 and 1 time units two tellers report a peak of 2147483647
    while the single teller's accumulator has wrapped to -2147483648. *)
Lemma peak_exceeds_single_teller_on_overflow :
  let input := [ {| arrivalTime := 0; transactionTime := 2147483647 |};
                 {| arrivalTime := 0; transactionTime := 1 |} ] in
  Forall valid_arrival input /\ valid_count 2 /\
  (maxTellerBusyTime (Q:=HeapQueue.queue) 4 2 (new input)).1 = inr 2147483647 /\
  (maxTellerBusyTime (Q:=HeapQueue.queue) 4 1 (new input)).1 = inr (-2147483648) /\
  ~ 2147483647 <= -2147483648.
Proof.
  split; [repeat constructor; vm_compute; congruence|].
  split; [split; vm_compute; lia|].
  split; [by vm_compute|]. split; [by vm_compute|]. lia.
Qed.

(** C5.  For the reference input {(20,6), (22,4), (23,2), (30,3)} and 1
    teller the peak busy time is 15, whatever the priority queue does with
    events of equal time; with the binary heap it is the first figure of
    [main]. *)
Theorem reference_trace_one_teller (Q : PriorityQueue) (fuel : nat) :
  PriorityQueueLaws Q -> (8 <= fuel)%nat ->
  (exists s',
     maxTellerBusyTime (Q:=Q) fuel 1 (new SimulationInput00) = (inr 15, s')) /\
  (maxTellerBusyTime (Q:=HeapQueue.queue) fuel 1 (new SimulationInput00)).1
    = inr 15.
Proof.
  intros HQ Hfuel. split.
  - assert (valid_count 1) as H1 by (split; vm_compute; lia).
    pose proof (ready_new SimulationInput00 HQ) as Hready.
    destruct (run_complete HQ SimulationInput00 1 fuel H1 Hfuel)
      as (log & s' & _ & Hrun & HG & _ & _ & _ & Hlen & _).
    destruct (simulate_unfold fuel 1 (new SimulationInput00) _ s'
                (setupSimulation_valid HQ _ _ H1 Hready) Hrun) as [_ Hmax].
    destruct (run_work HQ SimulationInput00 1 log s' H1) as [Hwork _]; try done.
    { repeat constructor; vm_compute; congruence. }
    assert (total_work SimulationInput00 = 15) as Htotal by reflexivity.
    exists s'. rewrite Hmax.
    destruct (tellers s') as [|t [|? ?]]; try done.
    cbn [work_done] in Hwork. simpl. unfold Teller.elapsedTimeWorking.
    replace (elapsedTimeBusy t) with 15 by lia. done.
  - destruct (maxTellerBusyTime (Q:=HeapQueue.queue) 8 1 (new SimulationInput00))
      as [r s'] eqn:Hmax.
    assert (r = inr 15) as -> by (by vm_compute in Hmax; injection Hmax as <- _).
    by rewrite (maxTellerBusyTime_fuel _ _ _ _ _ _ Hmax Hfuel).
Qed.

Lemma reference_trace_one_teller_witness :
  (exists s',
     maxTellerBusyTime (Q:=LifoQueue.queue) 8 1 (new SimulationInput00)
       = (inr 15, s')) /\
  (maxTellerBusyTime (Q:=HeapQueue.queue) 8 1 (new SimulationInput00)).1 = inr 15.
Proof.
  apply (reference_trace_one_teller LifoQueue.queue 8).
  - exact LifoQueue_laws.
  - lia.
Defined.

(** The log of a run from a ready engine over an input that fits. *)
Lemma run_log (Q : PriorityQueue) (s : BankSim3000 Q) (tellerCount fuel : nat) :
  PriorityQueueLaws Q -> ready s ->
  Forall valid_arrival (simulationInput s) ->
  Forall (fun a => arrivalTime a + total_work (simulationInput s) <= Int.INT_MAX)
         (simulationInput s) ->
  valid_count tellerCount ->
  (2 * length (simulationInput s) <= fuel)%nat ->
  exists s0 log s',
    setupSimulation tellerCount s = (inr tt, s0) /\
    runSimulationLog fuel s0 = (inr log, s') /\
    Forall event_safe log /\
    StronglySorted Z.le (map (fun p => get_event_time p.1) log).
Proof.
  intros HQ Hready Hvalid Hbound Hn Hfuel.
  destruct (run_complete HQ (simulationInput s) tellerCount fuel Hn Hfuel)
    as (log & s' & Hlog & _ & HG & _).
  pose proof (total_work_bound _ Hvalid Hbound) as Htotal.
  pose proof (start_WInv HQ _ tellerCount Hvalid) as HW.
  destruct (GRun_log _ _ _ _ Htotal HG) as [Hsafe Hsorted]; [| done | |].
  { apply start_SInv; [done | apply Hn]. }
  { by apply start_TInv. }
  exists (start_state (simulationInput s) tellerCount), log, s'.
  split; [by apply setupSimulation_valid|]. split; [done|]. split; [done|].
  apply (Hsorted Int.INT_MIN). apply Forall_forall. intros e He.
  by apply (winv_times _ _ _ _ HW).
Qed.

(** C6 (as amended).  Within a run started from an input whose times are
    non-negative [int]s with every arrival time plus the total of the
    transaction times at most [INT_MAX], the times of the events removed
    from the event queue, in the order of their removal, never decrease. *)
Theorem events_leave_in_time_order (Q : PriorityQueue) (s : BankSim3000 Q)
    (tellerCount fuel : nat) :
  PriorityQueueLaws Q -> ready s ->
  Forall valid_arrival (simulationInput s) ->
  Forall (fun a => arrivalTime a + total_work (simulationInput s) <= Int.INT_MAX)
         (simulationInput s) ->
  valid_count tellerCount ->
  (2 * length (simulationInput s) <= fuel)%nat ->
  exists s0 log s',
    setupSimulation tellerCount s = (inr tt, s0) /\
    runSimulationLog fuel s0 = (inr log, s') /\
    StronglySorted Z.le (map (fun p => get_event_time p.1) log).
Proof.
  intros HQ Hready Hvalid Hbound Hn Hfuel.
  destruct (run_log Q s tellerCount fuel HQ Hready Hvalid Hbound Hn Hfuel)
    as (s0 & log & s' & ? & ? & _ & ?).
  by exists s0, log, s'.
Qed.

Lemma events_leave_in_time_order_witness :
  exists s0 log s',
    setupSimulation (Q:=HeapQueue.queue) 2 (new SimulationInput00) = (inr tt, s0) /\
    runSimulationLog 8 s0 = (inr log, s') /\
    StronglySorted Z.le (map (fun p => get_event_time p.1) log).
Proof.
  apply (events_leave_in_time_order HeapQueue.queue (new SimulationInput00) 2 8).
  - exact HeapQueue_laws.
  - exact (ready_new SimulationInput00 HeapQueue_laws).
  - repeat constructor; vm_compute; congruence.
  - repeat constructor; vm_compute; congruence.
  - split; vm_compute; lia.
  - simpl; lia.
Defined.

(** C6 as stated fails where a departure time wraps: the arrival at
    2147483647 with transaction time 1 schedules its departure at
    -2147483648, which is removed after the arrival. *)
Lemma events_out_of_order_on_overflow :
  let input := [ {| arrivalTime := 2147483647; transactionTime := 1 |} ] in
  Forall valid_arrival input /\ valid_count 1 /\
  exists log,
    (runSimulationLog (Q:=HeapQueue.queue) 2
       (setupSimulation 1 (new input)).2).1 = inr log /\
    map (fun p => get_event_time p.1) log = [2147483647; -2147483648] /\
    ~ StronglySorted Z.le (map (fun p => get_event_time p.1) log).
Proof.
  split; [repeat constructor; vm_compute; congruence|].
  split; [split; vm_compute; lia|].
  eexists. split; [by vm_compute|]. split; [done|].
  simpl. intros H. apply StronglySorted_inv in H as [_ H].
  apply Forall_cons in H as [H _]. lia.
Qed.



(** C8.  For every input of K arrival events and every teller count in
    [1,5], the loop of a run from a ready engine terminates, having
    removed and processed at most 2 * K events. *)
Theorem loop_terminates_within_twice_the_arrivals (Q : PriorityQueue)
    (s : BankSim3000 Q) (tellerCount fuel : nat) :
  PriorityQueueLaws Q -> ready s -> valid_count tellerCount ->
  (2 * length (simulationInput s) <= fuel)%nat ->
  exists s0 log s',
    setupSimulation tellerCount s = (inr tt, s0) /\
    runSimulation fuel s0 = (inr tt, s') /\
    runSimulationLog fuel s0 = (inr log, s') /\
    (length log <= 2 * length (simulationInput s))%nat.
Proof.
  intros HQ Hready Hn Hfuel.
  destruct (run_complete HQ (simulationInput s) tellerCount fuel Hn Hfuel)
    as (log & s' & Hlog & Hrun & _ & Hlen & _).
  exists (start_state (simulationInput s) tellerCount), log, s'.
  split; [by apply setupSimulation_valid|]. split; [done|]. split; [done|]. lia.
Qed.

Lemma loop_terminates_within_twice_the_arrivals_witness :
  exists s0 log s',
    setupSimulation (Q:=HeapQueue.queue) 2 (new SimulationInput00) = (inr tt, s0) /\
    runSimulation 8 s0 = (inr tt, s') /\
    runSimulationLog 8 s0 = (inr log, s') /\
    (length log <= 2 * length SimulationInput00)%nat.
Proof.
  apply (loop_terminates_within_twice_the_arrivals
           HeapQueue.queue (new SimulationInput00) 2 8).
  - exact HeapQueue_laws.
  - exact (ready_new SimulationInput00 HeapQueue_laws).
  - split; vm_compute; lia.
  - simpl; lia.
Defined.

(** C9.  Calling [maxTellerBusyTime] twice in succession with the same
    teller count on the same engine gives the same result and the same
    engine state both times, and [setupSimulation] takes the engine left
    by the first run to the state it took the engine to before that
    run. *)
Theorem second_run_repeats_the_first (Q : PriorityQueue) (s : BankSim3000 Q)
    (tellerCount fuel : nat) (r : Error + Time) (s1 : BankSim3000 Q) :
  PriorityQueueLaws Q -> ready s ->
  (2 * length (simulationInput s) <= fuel)%nat ->
  maxTellerBusyTime fuel tellerCount s = (r, s1) ->
  maxTellerBusyTime fuel tellerCount s1 = (r, s1) /\
  setupSimulation tellerCount s1 = setupSimulation tellerCount s.
Proof.
  intros HQ Hready Hfuel Hmax.
  destruct (decide (valid_count tellerCount)) as [Hn|Hn].
  - destruct (run_complete HQ (simulationInput s) tellerCount fuel Hn Hfuel)
      as (log & s' & _ & Hrun & _ & _ & Hready' & Hin & _).
    pose proof (setupSimulation_valid HQ tellerCount s Hn Hready) as Hsetup.
    destruct (simulate_unfold fuel tellerCount s _ s' Hsetup Hrun) as [_ Hmax'].
    rewrite Hmax in Hmax'. injection Hmax' as -> ->.
    pose proof (setupSimulation_valid HQ tellerCount s' Hn Hready') as Hsetup'.
    rewrite Hin in Hsetup'.
    destruct (simulate_unfold fuel tellerCount s' _ s' Hsetup' Hrun) as [_ Hmax2].
    split; [done|]. by rewrite Hsetup, Hsetup'.
  - destruct (setupSimulation_invalid tellerCount s) as [what Hsetup].
    { unfold valid_count in Hn. lia. }
    unfold maxTellerBusyTime in Hmax. msimpl. rewrite Hsetup in Hmax.
    injection Hmax as <- <-. split; [|done].
    unfold maxTellerBusyTime. msimpl. by rewrite Hsetup.
Qed.

Lemma second_run_repeats_the_first_witness :
  let first := maxTellerBusyTime (Q:=HeapQueue.queue) 8 2 (new SimulationInput00) in
  maxTellerBusyTime 8 2 first.2 = (first.1, first.2) /\
  setupSimulation 2 first.2 = setupSimulation 2 (new SimulationInput00).
Proof.
  apply (second_run_repeats_the_first HeapQueue.queue (new SimulationInput00) 2 8).
  - exact HeapQueue_laws.
  - exact (ready_new SimulationInput00 HeapQueue_laws).
  - simpl; lia.
  - reflexivity.
Defined.

(** C10 (as amended).  During a run started from a ready engine over an
    input whose arrival and transaction times are non-negative [int]s,
    the run returns without an error, and every departure event removed
    from the queue carries a teller index below the pool size and finds
    that teller busy, so that [stopWork] reads a start time and the
    indexing is in bounds; the time added to the accumulator is
    non-negative; and the teller has started no later than the departure
    time when every arrival time plus the total of the transaction times
    is at most [INT_MAX]. *)
Theorem departures_find_their_teller_busy (Q : PriorityQueue) (s : BankSim3000 Q)
    (tellerCount fuel : nat) :
  PriorityQueueLaws Q -> ready s ->
  Forall valid_arrival (simulationInput s) ->
  valid_count tellerCount ->
  (2 * length (simulationInput s) <= fuel)%nat ->
  exists s0 log s',
    setupSimulation tellerCount s = (inr tt, s0) /\
    runSimulationLog fuel s0 = (inr log, s') /\
    forall d T, (Departure d, T) ∈ log ->
      (tellerIndex d < length T)%nat /\
      exists t since,
        T !! tellerIndex d = Some t /\ startBusy t = Some since /\
        0 <= Int.sub (departureTime d) since /\
        (Forall (fun a => arrivalTime a + total_work (simulationInput s)
                          <= Int.INT_MAX) (simulationInput s) ->
         since <= departureTime d).
Proof.
  intros HQ Hready Hvalid Hn Hfuel.
  destruct (run_complete HQ (simulationInput s) tellerCount fuel Hn Hfuel)
    as (log & s' & Hlog & _ & HG & _).
  pose proof (start_SInv HQ (simulationInput s) tellerCount (proj1 Hn)) as HS.
  pose proof (GRun_served _ _ _ HG HS (start_PInv HQ _ _ Hvalid)) as Hserved.
  exists (start_state (simulationInput s) tellerCount), log, s'.
  split; [by apply setupSimulation_valid|]. split; [done|].
  intros d T Hd.
  destruct (proj1 (Forall_forall _ _) Hserved (Departure d, T) Hd)
    as (Hidx & t & since & Ht & Hsince & Hinc).
  split; [done|]. exists t, since.
  split; [done|]. split; [done|]. split; [done|].
  intros Hbound.
  pose proof (total_work_bound _ Hvalid Hbound) as Htotal.
  destruct (GRun_log _ _ _ _ Htotal HG HS) as [Hsafe _].
  { by apply start_WInv. }
  { by apply start_TInv. }
  destruct (proj1 (Forall_forall _ _) Hsafe (Departure d, T) Hd)
    as (_ & t' & since' & Ht' & Hsince' & Hle & _).
  simpl in *. congruence.
Qed.

Lemma departures_find_their_teller_busy_witness :
  exists s0 log s',
    setupSimulation (Q:=HeapQueue.queue) 2 (new SimulationInput00) = (inr tt, s0) /\
    runSimulationLog 8 s0 = (inr log, s') /\
    forall d T, (Departure d, T) ∈ log ->
      (tellerIndex d < length T)%nat /\
      exists t since,
        T !! tellerIndex d = Some t /\ startBusy t = Some since /\
        0 <= Int.sub (departureTime d) since /\
        (Forall (fun a => arrivalTime a + total_work SimulationInput00
                          <= Int.INT_MAX) SimulationInput00 ->
         since <= departureTime d).
Proof.
  apply (departures_find_their_teller_busy
           HeapQueue.queue (new SimulationInput00) 2 8).
  - exact HeapQueue_laws.
  - exact (ready_new SimulationInput00 HeapQueue_laws).
  - repeat constructor; vm_compute; congruence.
  - split; vm_compute; lia.
  - simpl; lia.
Defined.

(** C10 as stated fails where a departure time wraps: the departure
    scheduled by the arrival at 2147483647 with transaction time 1 is due
    at -2147483648 and finds its teller busy since 2147483647. *)
Lemma departure_before_start_on_overflow :
  let input := [ {| arrivalTime := 2147483647; transactionTime := 1 |} ] in
  let d := {| departureTime := -2147483648; tellerIndex := 0 |} in
  let T := [ {| startBusy := Some 2147483647; elapsedTimeBusy := 0 |} ] in
  Forall valid_arrival input /\ valid_count 1 /\
  exists log,
    (runSimulationLog (Q:=HeapQueue.queue) 2
       (setupSimulation 1 (new input)).2).1 = inr log /\
    (Departure d, T) ∈ log /\
    ~ (exists t since,
         T !! tellerIndex d = Some t /\ startBusy t = Some since /\
         since <= departureTime d /\ 0 <= Int.sub (departureTime d) since).
Proof.
  split; [repeat constructor; vm_compute; congruence|].
  split; [split; vm_compute; lia|].
  eexists. split; [by vm_compute|]. split; [right; left|].
  intros (t & since & Ht & Hs & Hle & _). simpl in Ht. injection Ht as <-.
  simpl in Hs. injection Hs as <-. simpl in Hle. lia.
Qed.


(** * Further properties of the engine *)

(** ** The teller search *)

Lemma searchFrom_first (k i : nat) (T : list Teller) :
  searchFrom k T = Some i ->
  forall j t, (j < i - k)%nat -> T !! j = Some t -> Teller.isAvailable t = false.
Proof.
  revert k. induction T as [|t0 T IH]; intros k; simpl; [done|].
  destruct (Teller.isAvailable t0) eqn:Ht0.
  - intros [= <-] j t Hj. lia.
  - intros Hs [|j] t Hj Ht; simpl in Ht.
    + by injection Ht as <-.
    + apply (IH _ Hs j t); [|done].
      destruct (searchFrom_Some _ _ _ Hs) as [Hle _]. lia.
Qed.

(** X1.  [searchAvailableTellers] always returns, leaves the engine as it
    is, and answers with the lowest index of an available teller: every
    teller before it is busy; it answers [nullopt] exactly when every
    teller of the pool is busy. *)
Theorem searchAvailableTellers_finds_lowest_idle (Q : PriorityQueue)
    (s : BankSim3000 Q) :
  exists r,
    searchAvailableTellers s = (inr r, s) /\
    match r with
    | Some i =>
        (exists t, tellers s !! i = Some t /\ Teller.isAvailable t = true) /\
        forall j t, (j < i)%nat -> tellers s !! j = Some t ->
                    Teller.isAvailable t = false
    | None =>
        forall j t, tellers s !! j = Some t -> Teller.isAvailable t = false
    end.
Proof.
  exists (searchFrom 0 (tellers s)). split; [done|].
  destruct (searchFrom 0 (tellers s)) as [i|] eqn:Hs.
  - destruct (searchFrom_Some _ _ _ Hs) as (_ & t & Ht & Ha).
    rewrite Nat.sub_0_r in Ht. split; [by exists t|].
    intros j t' Hj. apply (searchFrom_first _ _ _ Hs). lia.
  - intros j t Ht. apply searchFrom_None in Hs.
    by apply (proj1 (Forall_lookup _ _) Hs j t).
Qed.

(** ** The comparison of events *)

(** X2.  [CompareEvent] is a strict weak ordering, as the priority queue
    requires of its comparison: it is irreflexive and transitive, being
    incomparable is transitive, and two events are incomparable only when
    [get_event_time] gives them the same time. *)
Theorem CompareEvent_is_a_strict_weak_order :
  (forall e, CompareEvent e e = false) /\
  (forall a b c, CompareEvent a b = true -> CompareEvent b c = true ->
                 CompareEvent a c = true) /\
  (forall a b c,
     CompareEvent a b = false -> CompareEvent b a = false ->
     CompareEvent b c = false -> CompareEvent c b = false ->
     CompareEvent a c = false /\ CompareEvent c a = false) /\
  (forall a b, CompareEvent a b = false -> CompareEvent b a = false ->
               get_event_time a = get_event_time b).
Proof.
  split; [|split; [|split]].
  - intros e. apply CompareEvent_false. lia.
  - intros a b c. rewrite !CompareEvent_true. lia.
  - intros a b c. rewrite !CompareEvent_false. lia.
  - intros a b. rewrite !CompareEvent_false. lia.
Qed.

(** ** The largest busy time *)

Lemma foldl_max_spec (x : Z) (l : list Z) :
  foldl Z.max x l ∈ x :: l /\ forall y, y ∈ x :: l -> y <= foldl Z.max x l.
Proof.
  revert x. induction l as [|z l IH]; intros x; simpl.
  - split; [by left|]. intros y ->%list_elem_of_singleton. lia.
  - destruct (IH (Z.max x z)) as [Hin Hmax]. split.
    + apply elem_of_cons in Hin as [Hin|Hin]; [|by do 2 right].
      rewrite Hin. destruct (Z.max_spec x z) as [[_ ->]|[_ ->]];
        [right; by left | by left].
    + intros y Hy.
      assert (Z.max x z <= foldl Z.max (Z.max x z) l) by (apply Hmax; by left).
      apply elem_of_cons in Hy as [->|Hy]; [lia|].
      apply elem_of_cons in Hy as [->|Hy]; [lia|].
      apply Hmax. by right.
Qed.

(** X3.  [SimulationResults::maxTellerBusyTime] returns an element of
    [elapsedTimeBusy] that no other element exceeds; the only vector on
    which it has no defined result is the empty one, where [max_element]
    returns the end iterator. *)
Theorem maxTellerBusyTime_is_the_greatest (elapsedTimeBusy : list Time) :
  match SimulationResults.maxTellerBusyTime elapsedTimeBusy with
  | inr m => m ∈ elapsedTimeBusy /\ forall x, x ∈ elapsedTimeBusy -> x <= m
  | inl err => elapsedTimeBusy = [] /\ err = undefined_behaviour
  end.
Proof.
  destruct elapsedTimeBusy as [|x l]; simpl; [done|]. apply foldl_max_spec.
Qed.

(** ** The stored input *)

Section KeepsInput.
Context {Q : PriorityQueue}.

Lemma keeps_input_ret {A} (a : A) : keeps_input (mret a : M (BankSim3000 Q) A).
Proof. by intros s. Qed.

Lemma keeps_input_throw {A} (e : Error) : keeps_input (throw e : M (BankSim3000 Q) A).
Proof. by intros s. Qed.

Lemma keeps_input_lift {A} (r : Error + A) : keeps_input (lift r : M (BankSim3000 Q) A).
Proof. by intros s. Qed.

Lemma keeps_input_get : keeps_input (get : M (BankSim3000 Q) (BankSim3000 Q)).
Proof. by intros s. Qed.

Lemma keeps_input_assert b : keeps_input (assert b : M (BankSim3000 Q) unit).
Proof. intros s. by destruct b. Qed.

Lemma keeps_input_modify (f : BankSim3000 Q -> BankSim3000 Q) :
  (forall s, simulationInput (f s) = simulationInput s) ->
  keeps_input (modify f).
Proof. intros Hf s. apply Hf. Qed.

Lemma keeps_input_bind {A B} (m : M (BankSim3000 Q) A) (k : A -> M (BankSim3000 Q) B) :
  keeps_input m -> (forall a, keeps_input (k a)) -> keeps_input (m ≫= k).
Proof.
  intros Hm Hk s. unfold mbind, M_bind. specialize (Hm s).
  destruct (m s) as [[e|a] s1]; simpl in *; [done|].
  by rewrite Hk.
Qed.

Ltac keeps :=
  repeat first
    [ apply keeps_input_bind; [|intros ?]
    | apply keeps_input_ret | apply keeps_input_throw | apply keeps_input_lift
    | apply keeps_input_get | apply keeps_input_assert
    | apply keeps_input_modify; by intros []
    | match goal with
      | |- keeps_input (match ?x with _ => _ end) => destruct x
      end ].

Lemma keeps_input_setupSimulation n : keeps_input (setupSimulation (Q:=Q) n).
Proof.
  unfold setupSimulation, setupEventQueue, resetTellers, clearBankLine.
  destruct (n <? MIN_TELLERS)%nat; [keeps|].
  destruct (MAX_TELLERS <? n)%nat; keeps.
Qed.

Lemma keeps_input_onTeller i f : keeps_input (onTeller (Q:=Q) i f).
Proof.
  unfold onTeller. keeps.
Qed.

Lemma keeps_input_processEvent now e : keeps_input (processEvent (Q:=Q) now e).
Proof.
  destruct e as [a|d]; simpl.
  - unfold processArrival, searchAvailableTellers, pushEvent.
    keeps; apply keeps_input_onTeller.
  - unfold processDeparture, pushEvent.
    keeps; apply keeps_input_onTeller.
Qed.

Lemma keeps_input_removeEvent : keeps_input (removeEvent (Q:=Q)).
Proof. unfold removeEvent. keeps. Qed.

Lemma keeps_input_runSimulation fuel : keeps_input (runSimulation (Q:=Q) fuel).
Proof.
  induction fuel as [|fuel IH]; intros s; cbn [runSimulation];
    destruct (pq_empty Q (eventQueue s)); try done.
  apply (keeps_input_bind removeEvent
           (fun e => processEvent (get_event_time e) e;; runSimulation fuel)).
  - apply keeps_input_removeEvent.
  - intros e. apply keeps_input_bind; [apply keeps_input_processEvent | done].
Qed.

Lemma keeps_input_maxTellerBusyTime fuel n :
  keeps_input (maxTellerBusyTime (Q:=Q) fuel n).
Proof.
  unfold maxTellerBusyTime, gatherResults. keeps;
    [apply keeps_input_setupSimulation | apply keeps_input_runSimulation].
Qed.

End KeepsInput.

(** X4.  No member function ever writes [simulationInput]: after
    [setupSimulation], [runSimulation], [maxTellerBusyTime] and the five
    calls of [main], from any engine and whether they return, throw or
    run out of fuel, the stored input is the one the engine had before. *)
Theorem simulationInput_is_never_modified (Q : PriorityQueue) (s : BankSim3000 Q)
    (fuel tellerCount : nat) :
  simulationInput (setupSimulation tellerCount s).2 = simulationInput s /\
  simulationInput (runSimulation fuel s).2 = simulationInput s /\
  simulationInput (maxTellerBusyTime fuel tellerCount s).2 = simulationInput s /\
  simulationInput (main_figures fuel s).2 = simulationInput s.
Proof.
  split; [apply keeps_input_setupSimulation|].
  split; [apply keeps_input_runSimulation|].
  split; [apply keeps_input_maxTellerBusyTime|].
  revert s. fold (keeps_input (main_figures (Q:=Q) fuel)).
  unfold main_figures.
  repeat (apply keeps_input_bind; [apply keeps_input_maxTellerBusyTime|intros ?]).
  apply keeps_input_ret.
Qed.

(** ** Setting up *)

(** X5.  On an engine between runs and for a teller count in [1,5],
    [setupSimulation] returns normally; afterwards the event queue holds
    exactly one arrival event per element of the input, the pool consists
    of [tellerCount] default-constructed tellers whatever it held before,
    the bank line is empty and the input is unchanged. *)
Theorem setupSimulation_loads_the_input (Q : PriorityQueue) (s : BankSim3000 Q)
    (tellerCount : nat) :
  PriorityQueueLaws Q -> ready s -> valid_count tellerCount ->
  exists s0,
    setupSimulation tellerCount s = (inr tt, s0) /\
    pq_wf Q (eventQueue s0) /\
    pq_contents Q (eventQueue s0) ≡ₚ map Arrival (simulationInput s) /\
    tellers s0 = replicate tellerCount Teller.new /\
    bankLine s0 = [] /\
    simulationInput s0 = simulationInput s.
Proof.
  intros HQ Hready Hn.
  exists (start_state (simulationInput s) tellerCount).
  split; [by apply setupSimulation_valid|].
  split; [by apply start_wf|]. split; [by apply (start_contents HQ)|]. done.
Qed.

Lemma setupSimulation_loads_the_input_witness :
  let s := (maxTellerBusyTime (Q:=HeapQueue.queue) 8 1 (new SimulationInput00)).2 in
  tellers s = [ {| startBusy := None; elapsedTimeBusy := 15 |} ] /\
  exists s0,
    setupSimulation 2 s = (inr tt, s0) /\
    pq_wf HeapQueue.queue (eventQueue s0) /\
    pq_contents HeapQueue.queue (eventQueue s0) ≡ₚ map Arrival (simulationInput s) /\
    tellers s0 = replicate 2 Teller.new /\
    bankLine s0 = [] /\
    simulationInput s0 = simulationInput s.
Proof.
  intros s. split; [reflexivity|].
  apply (setupSimulation_loads_the_input HeapQueue.queue s 2).
  - exact HeapQueue_laws.
  - apply (reachable_ready HeapQueue_laws SimulationInput00).
    apply (reachable_run SimulationInput00 _ 1 8); [apply reachable_new|].
    simpl. lia.
  - split; vm_compute; lia.
Defined.

(** X6.  With assertions enabled and a teller count in [1,5],
    [setupSimulation] stops at the assertion of [setupEventQueue], before
    anything is modified, when the event queue is not empty; when only
    the bank line is not empty it stops at the assertion of
    [clearBankLine], which is reached after the queue has been loaded and
    the pool has been reset. *)
Theorem setupSimulation_asserts_a_finished_run (Q : PriorityQueue)
    (s : BankSim3000 Q) (tellerCount : nat) :
  valid_count tellerCount ->
  (pq_empty Q (eventQueue s) = false ->
     setupSimulation tellerCount s = (inl assertion_failure, s)) /\
  (pq_empty Q (eventQueue s) = true -> bankLine s <> [] ->
     setupSimulation tellerCount s =
       (inl assertion_failure,
        {| simulationInput := simulationInput s;
           eventQueue := push_all (map Arrival (simulationInput s)) (eventQueue s);
           bankLine := bankLine s;
           tellers := replicate tellerCount Teller.new |})).
Proof.
  intros Hn. unfold setupSimulation.
  destruct (tellerCount <? MIN_TELLERS)%nat eqn:H1;
    [apply Nat.ltb_lt in H1; unfold valid_count in Hn; lia|].
  destruct (MAX_TELLERS <? tellerCount)%nat eqn:H2;
    [apply Nat.ltb_lt in H2; unfold valid_count in Hn; lia|].
  destruct s as [inp q L T].
  unfold setupEventQueue, resetTellers, clearBankLine. msimpl. simpl.
  split; intros Hempty.
  - by rewrite Hempty.
  - intros HL. rewrite Hempty. simpl.
    rewrite drainQueue_empty by done. rewrite foldl_push_arrivals.
    rewrite emplace_tellers_replicate. simpl.
    rewrite bool_decide_eq_false_2 by done. done.
Qed.

Lemma setupSimulation_asserts_a_finished_run_witness :
  let s := (setupSimulation (Q:=HeapQueue.queue) 2 (new SimulationInput00)).2 in
  pq_empty HeapQueue.queue (eventQueue s) = false /\
  setupSimulation 3 s = (inl assertion_failure, s).
Proof.
  intros s. split; [reflexivity|].
  apply (setupSimulation_asserts_a_finished_run HeapQueue.queue s 3).
  - split; vm_compute; lia.
  - reflexivity.
Defined.

(** ** Tellers *)

(** X7.  A teller that starts work at [start] is not available; when it
    stops at [stop] and neither the period nor the new total leaves the
    range of [int], it is available again and its busy time has grown by
    [stop - start].  [stopWork] on an available teller throws
    [bad_optional_access]. *)
Theorem teller_work_period (t : Teller) (start stop : Time) :
  Int.in_range (stop - start) ->
  Int.in_range (elapsedTimeBusy t + (stop - start)) ->
  Teller.isAvailable (Teller.startWork start t) = false /\
  Teller.stopWork stop (Teller.startWork start t) =
    inr {| startBusy := None;
           elapsedTimeBusy := elapsedTimeBusy t + (stop - start) |} /\
  (Teller.isAvailable t = true ->
   Teller.stopWork stop t = inl bad_optional_access).
Proof.
  intros H1 H2. split; [done|]. split.
  - unfold Teller.stopWork, Teller.startWork. simpl.
    unfold Int.sub. rewrite (wrap_id _ H1). by rewrite add_exact.
  - unfold Teller.isAvailable, Teller.stopWork. by destruct (startBusy t).
Qed.

Lemma teller_work_period_witness :
  Teller.isAvailable (Teller.startWork 20 Teller.new) = false /\
  Teller.stopWork 26 (Teller.startWork 20 Teller.new) =
    inr {| startBusy := None; elapsedTimeBusy := 0 + (26 - 20) |} /\
  (Teller.isAvailable Teller.new = true ->
   Teller.stopWork 26 Teller.new = inl bad_optional_access).
Proof.
  apply (teller_work_period Teller.new 20 26); vm_compute; split; congruence.
Defined.

(** ** A departure that finds no work to stop *)

(** X8.  [processDeparture] does not check the teller it is given: with
    an index outside the pool the access [tellers[tellerIndex]] is
    undefined, and with an available teller [stopWork] throws
    [bad_optional_access]; in that case the customer at the front of the
    line, if any, has already been removed, and nothing else has
    changed. *)
Theorem processDeparture_without_a_busy_teller (Q : PriorityQueue)
    (s : BankSim3000 Q) (currentTime : Time) (d : DepartureEvent) :
  (tellers s !! tellerIndex d = None ->
   (processDeparture currentTime d s).1 = inl undefined_behaviour) /\
  (forall t, tellers s !! tellerIndex d = Some t -> Teller.isAvailable t = true ->
   processDeparture currentTime d s =
     (inl bad_optional_access, set_bankLine (tail (bankLine s)) s)).
Proof.
  destruct s as [inp q L T]. unfold processDeparture, onTeller, set_bankLine.
  msimpl. simpl. split.
  - intros Ht. destruct L as [|c L]; simpl; by rewrite Ht.
  - intros t Ht Ha. unfold Teller.isAvailable in Ha.
    unfold Teller.stopWork.
    destruct L as [|c L]; simpl; rewrite Ht; simpl;
      by destruct (startBusy t).
Qed.

Lemma processDeparture_without_a_busy_teller_witness :
  let s := (setupSimulation (Q:=HeapQueue.queue) 1 (new SimulationInput00)).2 in
  (processDeparture 26 {| departureTime := 26; tellerIndex := 1 |} s).1
    = inl undefined_behaviour /\
  processDeparture 26 {| departureTime := 26; tellerIndex := 0 |} s
    = (inl bad_optional_access, set_bankLine (tail (bankLine s)) s).
Proof.
  intros s. split.
  - apply (proj1 (processDeparture_without_a_busy_teller HeapQueue.queue s 26
                    {| departureTime := 26; tellerIndex := 1 |})).
    reflexivity.
  - apply (proj2 (processDeparture_without_a_busy_teller HeapQueue.queue s 26
                    {| departureTime := 26; tellerIndex := 0 |}) Teller.new);
      reflexivity.
Defined.

(** ** What a run processes *)

Lemma arrivals_app C1 C2 : arrivals (C1 ++ C2) = arrivals C1 ++ arrivals C2.
Proof. induction C1 as [|[a|d] C1 IH]; simpl; by rewrite ?IH. Qed.

Lemma arrivals_map_Arrival input : arrivals (map Arrival input) = input.
Proof. induction input as [|a l IH]; simpl; by rewrite ?IH. Qed.

Lemma length_arrivals_departures C :
  length C = (length (arrivals C) + length (departures C))%nat.
Proof. induction C as [|[a|d] C IH]; simpl; lia. Qed.

Lemma gstep_pushes_departures L T e pushed L' T' :
  gstep L T e pushed L' T' -> arrivals pushed = [].
Proof. by inversion 1. Qed.

Section Processed.
Context {Q : PriorityQueue}.

Lemma GRun_arrivals (s : BankSim3000 Q) log s' :
  GRun s log s' -> arrivals (map fst log) ≡ₚ arrivals (contents s).
Proof.
  induction 1 as [s Hc|s e C' pushed s2 log s' Hit _ IH]; [by rewrite Hc|].
  destruct Hit as [H1 _ H3 H4 _ _].
  rewrite (arrivals_perm _ _ H1). rewrite (arrivals_perm _ _ H4) in IH.
  rewrite arrivals_app, (gstep_pushes_departures _ _ _ _ _ _ H3) in IH.
  simpl in IH. destruct e as [a|d]; simpl; by rewrite IH.
Qed.

End Processed.

(** X9.  In a run from an engine between runs with a teller count in
    [1,5], the arrival events removed from the queue are exactly the
    elements of the input, each once, and as many departure events are
    removed as the input has elements; no assumption on the times is
    needed. *)
Theorem every_arrival_is_processed_once (Q : PriorityQueue) (s : BankSim3000 Q)
    (tellerCount fuel : nat) :
  PriorityQueueLaws Q -> ready s -> valid_count tellerCount ->
  (2 * length (simulationInput s) <= fuel)%nat ->
  exists s0 log s',
    setupSimulation tellerCount s = (inr tt, s0) /\
    runSimulationLog fuel s0 = (inr log, s') /\
    arrivals (map fst log) ≡ₚ simulationInput s /\
    length (departures (map fst log)) = length (simulationInput s).
Proof.
  intros HQ Hready Hn Hfuel.
  destruct (run_complete HQ (simulationInput s) tellerCount fuel Hn Hfuel)
    as (log & s' & Hlog & _ & HG & Hlen & _).
  exists (start_state (simulationInput s) tellerCount), log, s'.
  split; [by apply setupSimulation_valid|]. split; [done|].
  assert (arrivals (map fst log) ≡ₚ simulationInput s) as Harr.
  { rewrite (GRun_arrivals _ _ _ HG).
    rewrite (arrivals_perm _ _ (start_contents HQ _ _)).
    by rewrite arrivals_map_Arrival. }
  split; [done|].
  pose proof (length_arrivals_departures (map fst log)) as Hsplit.
  rewrite length_map, Hlen, (Permutation_length Harr) in Hsplit. lia.
Qed.

Lemma every_arrival_is_processed_once_witness :
  exists s0 log s',
    setupSimulation (Q:=HeapQueue.queue) 2 (new SimulationInput00) = (inr tt, s0) /\
    runSimulationLog 8 s0 = (inr log, s') /\
    arrivals (map fst log) ≡ₚ SimulationInput00 /\
    length (departures (map fst log)) = length SimulationInput00.
Proof.
  apply (every_arrival_is_processed_once HeapQueue.queue (new SimulationInput00) 2 8).
  - exact HeapQueue_laws.
  - exact (ready_new SimulationInput00 HeapQueue_laws).
  - split; vm_compute; lia.
  - simpl; lia.
Defined.

(** ** The engine after a run *)

(** X10.  A run from an engine between runs with a teller count in
    [1,5] returns one busy time per teller; afterwards the pool has
    [tellerCount] tellers, none of them is still at work, and the engine
    is again between runs.  No assumption on the times is needed. *)
Theorem tellers_are_idle_after_a_run (Q : PriorityQueue) (s : BankSim3000 Q)
    (tellerCount fuel : nat) :
  PriorityQueueLaws Q -> ready s -> valid_count tellerCount ->
  (2 * length (simulationInput s) <= fuel)%nat ->
  exists results s',
    simulate fuel tellerCount s = (inr results, s') /\
    length results = tellerCount /\
    length (tellers s') = tellerCount /\
    Forall (fun t => startBusy t = None) (tellers s') /\
    ready s'.
Proof.
  intros HQ Hready Hn Hfuel.
  destruct (run_complete HQ (simulationInput s) tellerCount fuel Hn Hfuel)
    as (log & s' & _ & Hrun & _ & _ & Hready' & _ & Hlen & Hidle).
  destruct (simulate_unfold fuel tellerCount s _ s'
              (setupSimulation_valid HQ _ s Hn Hready) Hrun) as [Hsim _].
  exists (map Teller.elapsedTimeWorking (tellers s')), s'.
  split; [done|]. split; [by rewrite length_map|]. split; [done|].
  split; [|done].
  eapply Forall_impl; [exact Hidle|]. intros t. unfold Teller.isAvailable.
  by destruct (startBusy t).
Qed.

Lemma tellers_are_idle_after_a_run_witness :
  exists results s',
    simulate (Q:=HeapQueue.queue) 8 3 (new SimulationInput00) = (inr results, s') /\
    length results = 3%nat /\
    length (tellers s') = 3%nat /\
    Forall (fun t => startBusy t = None) (tellers s') /\
    ready s'.
Proof.
  apply (tellers_are_idle_after_a_run HeapQueue.queue (new SimulationInput00) 3 8).
  - exact HeapQueue_laws.
  - exact (ready_new SimulationInput00 HeapQueue_laws).
  - split; vm_compute; lia.
  - simpl; lia.
Defined.

(** ** An empty input *)

Lemma foldl_max_replicate_0 k : foldl Z.max 0 (replicate k 0) = 0.
Proof. induction k as [|k IH]; [done|]. exact IH. Qed.

(** X11.  With an empty input and a teller count in [1,5] the loop
    removes no event, every teller has busy time 0 and
    [maxTellerBusyTime] returns 0, with any amount of fuel. *)
Theorem empty_input_gives_zero (Q : PriorityQueue) (s : BankSim3000 Q)
    (tellerCount fuel : nat) :
  PriorityQueueLaws Q -> ready s -> valid_count tellerCount ->
  simulationInput s = [] ->
  runSimulationLog fuel (setupSimulation tellerCount s).2
    = (inr [], (setupSimulation tellerCount s).2) /\
  simulate fuel tellerCount s
    = (inr (replicate tellerCount 0), start_state [] tellerCount) /\
  maxTellerBusyTime fuel tellerCount s = (inr 0, start_state [] tellerCount).
Proof.
  intros HQ Hready Hn Hin.
  pose proof (setupSimulation_valid HQ tellerCount s Hn Hready) as Hsetup.
  rewrite Hin in Hsetup.
  assert (pq_empty Q (eventQueue (start_state (Q:=Q) [] tellerCount)) = true)
    as Hempty.
  { apply (pq_empty_spec Q HQ); [apply (start_wf HQ)|].
    apply Permutation_nil_r. exact (start_contents HQ [] tellerCount). }
  assert (forall f, runSimulation f (start_state (Q:=Q) [] tellerCount)
                    = (inr tt, start_state [] tellerCount)) as Hrun.
  { intros f. destruct f; cbn [runSimulation]; by rewrite Hempty. }
  rewrite Hsetup. cbn [snd]. split.
  { destruct fuel; cbn [runSimulationLog]; by rewrite Hempty. }
  destruct (simulate_unfold fuel tellerCount s _ _ Hsetup (Hrun fuel))
    as [-> ->].
  cbn [tellers start_state].
  assert (map Teller.elapsedTimeWorking (replicate tellerCount Teller.new)
          = replicate tellerCount 0) as ->.
  { clear. induction tellerCount as [|k IH]; simpl; [done | by rewrite IH]. }
  split; [done|].
  destruct Hn as [Hn _]. unfold MIN_TELLERS in Hn.
  destruct tellerCount as [|k]; [lia|].
  cbn [replicate SimulationResults.maxTellerBusyTime].
  by rewrite foldl_max_replicate_0.
Qed.

Lemma empty_input_gives_zero_witness :
  runSimulationLog (Q:=HeapQueue.queue) 0 (setupSimulation 4 (new [])).2
    = (inr [], (setupSimulation 4 (new [])).2) /\
  simulate (Q:=HeapQueue.queue) 0 4 (new [])
    = (inr (replicate 4 0), start_state [] 4) /\
  maxTellerBusyTime (Q:=HeapQueue.queue) 0 4 (new []) = (inr 0, start_state [] 4).
Proof.
  apply (empty_input_gives_zero HeapQueue.queue (new []) 4 0).
  - exact HeapQueue_laws.
  - exact (ready_new [] HeapQueue_laws).
  - split; vm_compute; lia.
  - reflexivity.
Defined.

(** ** An arrival *)

(** X12.  [processArrival] never throws, on any engine.  Either every
    teller is busy, and the customer is put at the back of the line with
    queue and pool unchanged; or an available teller starts work at
    [currentTime], keeping its busy time, a departure for that teller at
    [currentTime + transactionTime] is pushed, and the line and the other
    tellers are unchanged. *)
Theorem processArrival_serves_or_queues (Q : PriorityQueue) (s : BankSim3000 Q)
    (currentTime : Time) (a : ArrivalEvent) :
  exists s',
    processArrival currentTime a s = (inr tt, s') /\
    simulationInput s' = simulationInput s /\
    length (tellers s') = length (tellers s) /\
    ((Forall (fun t => Teller.isAvailable t = false) (tellers s) /\
      bankLine s' = bankLine s ++ [{| arrivalEvent := a |}] /\
      tellers s' = tellers s /\ eventQueue s' = eventQueue s)
     \/
     (exists i t,
        tellers s !! i = Some t /\ Teller.isAvailable t = true /\
        tellers s' =
          <[i := {| startBusy := Some currentTime;
                    elapsedTimeBusy := elapsedTimeBusy t |}]> (tellers s) /\
        bankLine s' = bankLine s /\
        eventQueue s' =
          pq_push Q (Departure {| departureTime :=
                                    Int.add currentTime (transactionTime a);
                                  tellerIndex := i |}) (eventQueue s))).
Proof.
  unfold processArrival, searchAvailableTellers, onTeller, pushEvent. msimpl.
  destruct (searchFrom 0 (tellers s)) as [i|] eqn:Hs.
  - destruct (searchFrom_Some _ _ _ Hs) as (_ & t & Ht & Ha).
    rewrite Nat.sub_0_r in Ht. rewrite Ht. eexists. split; [done|]. simpl.
    split; [done|]. split; [by rewrite length_insert|].
    right. exists i, t. done.
  - eexists. split; [done|]. simpl. split; [done|]. split; [done|].
    left. by apply searchFrom_None in Hs.
Qed.

(** ** The peak and the work of the input *)

Lemma sumZ_le_length (l : list Z) (m : Z) :
  (forall x, x ∈ l -> x <= m) -> sumZ l <= Z.of_nat (length l) * m.
Proof.
  induction l as [|y l IH]; intros H; [simpl; lia|].
  assert (y <= m) by (apply H; by left).
  assert (sumZ l <= Z.of_nat (length l) * m) by (apply IH; intros; apply H; by right).
  unfold sumZ in *. simpl length. simpl foldr. lia.
Qed.

Lemma elem_le_sumZ (l : list Z) (x : Z) :
  Forall (fun y => 0 <= y) l -> x ∈ l -> x <= sumZ l.
Proof.
  induction 1 as [|y l Hy Hl IH]; [by intros ?%elem_of_nil|].
  assert (0 <= sumZ l).
  { clear -Hl. induction Hl; unfold sumZ in *; simpl; lia. }
  intros [->|Hx]%elem_of_cons; unfold sumZ in *; simpl; [lia|].
  specialize (IH Hx). lia.
Qed.

Section Peak.
Context {Q : PriorityQueue} (HQ : PriorityQueueLaws Q).

Lemma maxTellerBusyTime_bounds (s : BankSim3000 Q) (tellerCount fuel : nat) :
  ready s -> valid_count tellerCount ->
  Forall valid_arrival (simulationInput s) ->
  total_work (simulationInput s) <= Int.INT_MAX ->
  (2 * length (simulationInput s) <= fuel)%nat ->
  exists peak s',
    maxTellerBusyTime fuel tellerCount s = (inr peak, s') /\
    ready s' /\ simulationInput s' = simulationInput s /\
    (0 <= peak <= total_work (simulationInput s)) /\
    total_work (simulationInput s) <= Z.of_nat tellerCount * peak.
Proof.
  intros Hready Hn Hvalid Htotal Hfuel.
  destruct (run_complete HQ (simulationInput s) tellerCount fuel Hn Hfuel)
    as (log & s' & _ & Hrun & HG & _ & Hready' & Hin & Hlen & _).
  destruct (run_work HQ _ _ _ _ Hn Hvalid Htotal HG) as [Hwork Hok].
  destruct (simulate_unfold fuel tellerCount s _ s'
              (setupSimulation_valid HQ _ s Hn Hready) Hrun) as [_ Hmax].
  rewrite work_done_sumZ in Hwork.
  set (results := map Teller.elapsedTimeWorking (tellers s')) in *.
  assert (length results = tellerCount) as Hlr
    by (unfold results; by rewrite length_map).
  assert (Forall (fun y => 0 <= y) results) as Hpos.
  { unfold results. apply Forall_fmap. eapply Forall_impl; [exact Hok|].
    by intros t [? _]. }
  destruct results as [|x rest] eqn:Hres.
  { simpl in Hlr. destruct Hn as [Hn _]. unfold MIN_TELLERS in Hn. lia. }
  destruct (foldl_max_spec x rest) as [Hin' Hub].
  cbn [SimulationResults.maxTellerBusyTime] in Hmax.
  exists (foldl Z.max x rest), s'.
  split; [done|]. split; [done|]. split; [done|].
  rewrite <- Hwork, <- Hlr. split; [split|].
  - by apply (proj1 (Forall_forall _ _) Hpos).
  - by apply elem_le_sumZ.
  - by apply sumZ_le_length.
Qed.

End Peak.

(** X13.  For an input of non-negative times whose transaction times
    total at most [INT_MAX], and a teller count [n] in [1,5],
    [maxTellerBusyTime] returns a peak between 0 and the total of the
    transaction times, and [n] times the peak is at least that total: the
    peak is no less than the average busy time. *)
Theorem peak_is_between_average_and_total (Q : PriorityQueue) (s : BankSim3000 Q)
    (tellerCount fuel : nat) :
  PriorityQueueLaws Q -> ready s -> valid_count tellerCount ->
  Forall valid_arrival (simulationInput s) ->
  total_work (simulationInput s) <= Int.INT_MAX ->
  (2 * length (simulationInput s) <= fuel)%nat ->
  exists peak s',
    maxTellerBusyTime fuel tellerCount s = (inr peak, s') /\
    (0 <= peak <= total_work (simulationInput s)) /\
    total_work (simulationInput s) <= Z.of_nat tellerCount * peak.
Proof.
  intros HQ Hready Hn Hvalid Htotal Hfuel.
  destruct (maxTellerBusyTime_bounds HQ s tellerCount fuel)
    as (peak & s' & Hrun & _ & _ & H1 & H2); try done.
  by exists peak, s'.
Qed.

Lemma peak_is_between_average_and_total_witness :
  exists peak s',
    maxTellerBusyTime (Q:=HeapQueue.queue) 8 3 (new SimulationInput00)
      = (inr peak, s') /\
    (0 <= peak <= total_work SimulationInput00) /\
    total_work SimulationInput00 <= 3 * peak.
Proof.
  apply (peak_is_between_average_and_total HeapQueue.queue
           (new SimulationInput00) 3 8).
  - exact HeapQueue_laws.
  - exact (ready_new SimulationInput00 HeapQueue_laws).
  - split; vm_compute; lia.
  - repeat constructor; vm_compute; congruence.
  - vm_compute; congruence.
  - simpl; lia.
Defined.

(** ** The five figures of [main] *)

(** X14.  For every input of non-negative times whose transaction
    times total at most [INT_MAX], the five calls of [main] on one engine
    all return; the first figure is the total of the transaction times,
    the figure for [k] tellers lies between 0 and that total and [k]
    times it is at least the total; the engine ends between runs with its
    input unchanged. *)
Theorem main_prints_five_bounded_figures (Q : PriorityQueue)
    (input : SimulationInput) (fuel : nat) :
  PriorityQueueLaws Q ->
  Forall valid_arrival input -> total_work input <= Int.INT_MAX ->
  (2 * length input <= fuel)%nat ->
  exists figures s',
    main_figures (Q:=Q) fuel (new input) = (inr figures, s') /\
    length figures = 5%nat /\
    figures !! 0%nat = Some (total_work input) /\
    (forall k t, figures !! k = Some t ->
       (0 <= t <= total_work input) /\
       total_work input <= Z.of_nat (S k) * t) /\
    ready s' /\ simulationInput s' = input.
Proof.
  intros HQ Hvalid Htotal Hfuel.
  assert (forall n (s : BankSim3000 Q),
            (1 <= n <= 5)%nat -> ready s -> simulationInput s = input ->
            exists peak s',
              maxTellerBusyTime fuel n s = (inr peak, s') /\
              ready s' /\ simulationInput s' = input /\
              (0 <= peak <= total_work input) /\
              total_work input <= Z.of_nat n * peak) as Hrun.
  { intros n s Hn Hready Hin.
    destruct (maxTellerBusyTime_bounds HQ s n fuel)
      as (peak & s' & H1 & H2 & H3 & H4 & H5); rewrite ?Hin; try done.
    exists peak, s'. rewrite Hin in *. done. }
  destruct (Hrun 1%nat (new input)) as (t1 & s1 & E1 & R1 & I1 & B1 & A1);
    [lia | exact (ready_new input HQ) | done |].
  destruct (Hrun 2%nat s1) as (t2 & s2 & E2 & R2 & I2 & B2 & A2); [lia|done|done|].
  destruct (Hrun 3%nat s2) as (t3 & s3 & E3 & R3 & I3 & B3 & A3); [lia|done|done|].
  destruct (Hrun 4%nat s3) as (t4 & s4 & E4 & R4 & I4 & B4 & A4); [lia|done|done|].
  destruct (Hrun 5%nat s4) as (t5 & s5 & E5 & R5 & I5 & B5 & A5); [lia|done|done|].
  exists [t1; t2; t3; t4; t5], s5. split.
  { unfold main_figures. msimpl. by rewrite E1, E2, E3, E4, E5. }
  split; [done|]. split; [simpl; f_equal; lia|]. split; [|done].
  intros [|[|[|[|[|k]]]]] t; simpl; intros [= <-]; split; done.
Qed.

Lemma main_prints_five_bounded_figures_witness :
  exists figures s',
    main_figures (Q:=HeapQueue.queue) 8 (new SimulationInput00)
      = (inr figures, s') /\
    length figures = 5%nat /\
    figures !! 0%nat = Some (total_work SimulationInput00) /\
    (forall k t, figures !! k = Some t ->
       (0 <= t <= total_work SimulationInput00) /\
       total_work SimulationInput00 <= Z.of_nat (S k) * t) /\
    ready s' /\ simulationInput s' = SimulationInput00.
Proof.
  apply (main_prints_five_bounded_figures HeapQueue.queue SimulationInput00 8).
  - exact HeapQueue_laws.
  - repeat constructor; vm_compute; congruence.
  - vm_compute; congruence.
  - simpl; lia.
Defined.

(** ** Every transaction is worked by somebody *)

Lemma owed_perm T i C C' : C ≡ₚ C' -> owed T i C = owed T i C'.
Proof.
  induction 1 as [|[a|d] ? ? ? IH|[a|d] [a'|d'] ?|]; simpl; lia.
Qed.

Lemma owed_insert_ne T i i0 t' C :
  i <> i0 -> owed (<[i0 := t']> T) i C = owed T i C.
Proof.
  intros Hne. induction C as [|[a|d] C IH]; simpl; [done|done|].
  rewrite IH. destruct (decide (tellerIndex d = i)) as [Hd|]; [|done].
  rewrite pending_insert_ne; [done | congruence].
Qed.

Lemma owed_not_pending T i C : i ∉ pending_tellers C -> owed T i C = 0.
Proof.
  induction C as [|[a|d] C IH]; simpl; intros H; [done | by apply IH |].
  apply not_elem_of_cons in H as [Hne Hnot].
  rewrite IH by done. destruct (decide (tellerIndex d = i)); [congruence | done].
Qed.

Lemma owed_nonneg T i C :
  (forall d, Departure d ∈ C -> 0 <= pending T d) -> 0 <= owed T i C.
Proof.
  induction C as [|[a|d] C IH]; simpl; intros H; [lia| |].
  - apply IH. intros; apply H; by right.
  - assert (0 <= pending T d) by (apply H; by left).
    assert (0 <= owed T i C) by (apply IH; intros; apply H; by right).
    destruct (decide (tellerIndex d = i)); lia.
Qed.

Lemma accounted_perm x C C' L T : C ≡ₚ C' -> accounted x C L T -> accounted x C' L T.
Proof.
  intros H [(a & Ha & Hx)|[Hc|(i & t & Ht & Hx)]].
  - left. exists a. by rewrite <- H.
  - right; by left.
  - right; right. exists i, t. by rewrite <- (owed_perm _ _ _ _ H).
Qed.

(** What a teller has worked and is still to work never goes down. *)
Lemma gstep_owed W e C L T pushed L' T' i t :
  W <= Int.INT_MAX ->
  SInv (e :: C) L T -> WInv W (e :: C) L T ->
  gstep L T e pushed L' T' ->
  T !! i = Some t ->
  exists t', T' !! i = Some t' /\
    elapsedTimeBusy t + owed T i (e :: C)
      <= elapsedTimeBusy t' + owed T' i (pushed ++ C).
Proof.
  intros HW HS HWI Hstep Hi.
  pose proof HWI as [H1 H2 H3 H4 H5 H6]. pose proof HS as [S1 S2 S3 S4].
  inversion Hstep as [L0 T0 a i0 t0 Hs Ht | L0 T0 a Hs | T0 d t0 t' Ht Hstop
                     | c L0 T0 d t0 t' Ht Hstop]; subst; simpl in S1, S2.
  - (* an arrival is served at once *)
    destruct (searchFrom_Some _ _ _ Hs) as (_ & t1 & Ht1 & Ha).
    rewrite Nat.sub_0_r, Ht in Ht1. injection Ht1 as <-.
    assert (i0 ∉ pending_tellers C) as Hi0.
    { rewrite S2. intros (t1 & Ht1 & Hb).
      assert (t1 = t0) as -> by congruence. congruence. }
    destruct (H1 a) as [Harr Htxn]; [by left|].
    destruct (decide (i = i0)) as [->|Hne].
    + assert (t = t0) as -> by congruence.
      exists (Teller.startWork (arrivalTime a) t0).
      split; [apply list_lookup_insert_eq; by eapply lookup_lt_Some|].
      simpl. destruct (decide (i0 = i0)); [|done].
      rewrite pending_started; [|by eapply lookup_lt_Some|done]. simpl.
      rewrite sub_add_cancel
        by (unfold Int.in_range, Int.INT_MIN, Int.INT_MAX in *; lia).
      rewrite !owed_not_pending by done. lia.
    + exists t. split; [by rewrite list_lookup_insert_ne|].
      simpl. destruct (decide (i0 = i)); [congruence|].
      rewrite owed_insert_ne by done. lia.
  - (* an arrival joins the line *)
    exists t. split; [done|]. simpl. lia.
  - (* a departure leaves its teller idle *)
    apply NoDup_cons in S1 as [Hd S1].
    destruct (stopWork_exact _ _ _ _ _ _ _ HW HWI Ht Hstop) as (Hnone & Hel & Hok).
    destruct (decide (i = tellerIndex d)) as [->|Hne].
    + assert (t = t0) as -> by congruence.
      exists t'. split; [apply list_lookup_insert_eq; by eapply lookup_lt_Some|].
      simpl. destruct (decide (tellerIndex d = tellerIndex d)); [|done].
      rewrite !owed_not_pending by done. lia.
    + exists t. split; [by rewrite list_lookup_insert_ne|].
      simpl. destruct (decide (tellerIndex d = i)); [congruence|].
      rewrite owed_insert_ne by done. lia.
  - (* a departure hands its teller the next customer *)
    apply NoDup_cons in S1 as [Hd S1].
    destruct (stopWork_exact _ _ _ _ _ _ _ HW HWI Ht Hstop) as (Hnone & Hel & Hok).
    destruct (H2 c) as [Harr Htxn]; [by left|].
    destruct (decide (i = tellerIndex d)) as [->|Hne].
    + assert (t = t0) as -> by congruence.
      exists (Teller.startWork (departureTime d) t').
      split; [apply list_lookup_insert_eq; by eapply lookup_lt_Some|].
      simpl. destruct (decide (tellerIndex d = tellerIndex d)); [|done].
      rewrite pending_started; [|by eapply lookup_lt_Some|done]. simpl.
      rewrite sub_add_cancel
        by (unfold Int.in_range, Int.INT_MIN, Int.INT_MAX in *; lia).
      rewrite !owed_not_pending by done. lia.
    + exists t. split; [by rewrite list_lookup_insert_ne|].
      simpl. destruct (decide (tellerIndex d = i)); [congruence|].
      rewrite owed_insert_ne by done. lia.
Qed.

(** The teller that takes a customer owes the customer's whole
    transaction. *)
Lemma gstep_accounted W x e C L T pushed L' T' :
  W <= Int.INT_MAX ->
  SInv (e :: C) L T -> WInv W (e :: C) L T ->
  gstep L T e pushed L' T' ->
  accounted x (e :: C) L T -> accounted x (pushed ++ C) L' T'.
Proof.
  intros HW HS HWI Hstep [(a & Ha & Hx)|[(c & Hc & Hx)|(i & t & Ht & Hx)]].
  - (* the transaction has not arrived yet *)
    apply elem_of_cons in Ha as [<-|Ha].
    2:{ left. exists a. split; [|done]. apply elem_of_app. by right. }
    pose proof HWI as [H1 H2 H3 H4 H5 H6].
    destruct (H1 a) as [Harr Htxn]; [by left|].
    inversion Hstep as [L0 T0 a0 i0 t0 Hs Ht | L0 T0 a0 Hs | |]; subst.
    + right; right. exists i0, (Teller.startWork (arrivalTime a) t0).
      split; [apply list_lookup_insert_eq; by eapply lookup_lt_Some|].
      pose proof (proj1 (Forall_lookup _ _) H4 _ _ Ht) as [Ht0 _].
      simpl. destruct (decide (i0 = i0)); [|done].
      rewrite pending_started; [|by eapply lookup_lt_Some|done]. simpl.
      rewrite sub_add_cancel
        by (unfold Int.in_range, Int.INT_MIN, Int.INT_MAX in *; lia).
      assert (0 <= owed (<[i0:=Teller.startWork (arrivalTime a) t0]> T) i0 C).
      { pose proof (gstep_WInv _ _ _ _ _ _ _ _ HW HS HWI Hstep) as [_ _ _ _ H5' _].
        apply owed_nonneg. intros d Hd. apply H5'. simpl. by right. }
      lia.
    + right; left. exists {| arrivalEvent := a |}. split; [|done].
      apply elem_of_app. right. by left.
  - (* the transaction waits in the line *)
    pose proof HWI as [H1 H2 H3 H4 H5 H6].
    inversion Hstep as [L0 T0 a0 i0 t0 Hs Ht | L0 T0 a0 Hs | T0 d t0 t' Ht Hstop
                       | c0 L0 T0 d t0 t' Ht Hstop]; subst.
    + right; left. by exists c.
    + right; left. exists c. split; [|done]. apply elem_of_app. by left.
    + by apply elem_of_nil in Hc.
    + apply elem_of_cons in Hc as [->|Hc]; [|right; left; by exists c].
      destruct (stopWork_exact _ _ _ _ _ _ _ HW HWI Ht Hstop)
        as (Hnone & Hel & [Hok _]).
      destruct (H2 c0) as [Harr Htxn]; [by left|].
      right; right.
      exists (tellerIndex d), (Teller.startWork (departureTime d) t').
      split; [apply list_lookup_insert_eq; by eapply lookup_lt_Some|].
      simpl. destruct (decide (tellerIndex d = tellerIndex d)); [|done].
      rewrite pending_started; [|by eapply lookup_lt_Some|done]. simpl.
      rewrite sub_add_cancel
        by (unfold Int.in_range, Int.INT_MIN, Int.INT_MAX in *; lia).
      assert (0 <= owed (<[tellerIndex d:=Teller.startWork (departureTime d) t']> T)
                     (tellerIndex d) C).
      { pose proof (gstep_WInv _ _ _ _ _ _ _ _ HW HS HWI Hstep) as [_ _ _ _ H5' _].
        apply owed_nonneg. intros d' Hd'. apply H5'. simpl. by right. }
      lia.
  - (* the transaction is with a teller *)
    destruct (gstep_owed _ _ _ _ _ _ _ _ _ _ HW HS HWI Hstep Ht) as (t' & Ht' & Hle).
    right; right. exists i, t'. split; [done | lia].
Qed.

Section Accounted.
Context {Q : PriorityQueue} (HQ : PriorityQueueLaws Q).

Lemma GRun_accounted W x (s : BankSim3000 Q) log s' :
  W <= Int.INT_MAX ->
  GRun s log s' ->
  SInv (contents s) (bankLine s) (tellers s) ->
  WInv W (contents s) (bankLine s) (tellers s) ->
  accounted x (contents s) (bankLine s) (tellers s) ->
  accounted x (contents s') (bankLine s') (tellers s').
Proof.
  intros HW Hrun HS HWI HA.
  apply (GRun_invariant
           (fun C L T => SInv C L T /\ WInv W C L T /\ accounted x C L T)
           s log s'); try done.
  - intros C C' L T HC (? & ? & ?).
    split; [by eapply SInv_perm|]. split; [by eapply WInv_perm|].
    by eapply accounted_perm.
  - intros e C L T pushed L' T' (? & ? & ?) Hstep.
    split; [by eapply gstep_SInv|]. split; [by eapply gstep_WInv|].
    by eapply gstep_accounted.
Qed.

End Accounted.

(** X15.  For an input of non-negative times whose transaction times
    total at most [INT_MAX], and a teller count in [1,5], the peak that
    [maxTellerBusyTime] returns is at least every transaction time of the
    input: each transaction is worked in full by one teller. *)
Theorem peak_is_at_least_every_transaction (Q : PriorityQueue)
    (s : BankSim3000 Q) (tellerCount fuel : nat) :
  PriorityQueueLaws Q -> ready s -> valid_count tellerCount ->
  Forall valid_arrival (simulationInput s) ->
  total_work (simulationInput s) <= Int.INT_MAX ->
  (2 * length (simulationInput s) <= fuel)%nat ->
  exists peak s',
    maxTellerBusyTime fuel tellerCount s = (inr peak, s') /\
    forall a, a ∈ simulationInput s -> transactionTime a <= peak.
Proof.
  intros HQ Hready Hn Hvalid Htotal Hfuel.
  destruct (run_complete HQ (simulationInput s) tellerCount fuel Hn Hfuel)
    as (log & s' & _ & Hrun & HG & _ & Hready' & Hin & Hlen & _).
  destruct (simulate_unfold fuel tellerCount s _ s'
              (setupSimulation_valid HQ _ s Hn Hready) Hrun) as [_ Hmax].
  pose proof (GRun_end _ _ _ HG (start_wf HQ _ _)) as (Hc & _ & _).
  destruct (tellers s') as [|t0 T'] eqn:HT.
  { simpl in Hlen. destruct Hn as [Hn _]. unfold MIN_TELLERS in Hn. lia. }
  cbn [map SimulationResults.maxTellerBusyTime] in Hmax.
  eexists _, s'. split; [exact Hmax|].
  intros a Ha.
  assert (accounted (transactionTime a) (contents s') (bankLine s') (tellers s'))
    as Hacc.
  { apply (GRun_accounted (total_work (simulationInput s)) _ _ log s' Htotal HG).
    - apply (start_SInv HQ). by destruct Hn.
    - by apply (start_WInv HQ).
    - left. exists a. split; [|done].
      rewrite (start_contents HQ). by apply list_elem_of_fmap_2. }
  destruct Hready' as (_ & _ & HL).
  rewrite Hc, HL, HT in Hacc.
  destruct Hacc as [(a' & Ha' & _)|[(c & Hc' & _)|(i & t & Ht & Hx)]].
  - by apply elem_of_nil in Ha'.
  - by apply elem_of_nil in Hc'.
  - simpl in Hx.
    destruct (foldl_max_spec (Teller.elapsedTimeWorking t0)
                (map Teller.elapsedTimeWorking T')) as [_ Hub].
    assert (elapsedTimeBusy t <= foldl Z.max (Teller.elapsedTimeWorking t0)
                                   (map Teller.elapsedTimeWorking T')).
    { apply Hub. change (Teller.elapsedTimeWorking t ∈
                           map Teller.elapsedTimeWorking (t0 :: T')).
      apply list_elem_of_fmap_2. by eapply list_elem_of_lookup_2. }
    lia.
Qed.

Lemma peak_is_at_least_every_transaction_witness :
  exists peak s',
    maxTellerBusyTime (Q:=HeapQueue.queue) 8 5 (new SimulationInput00)
      = (inr peak, s') /\
    forall a, a ∈ SimulationInput00 -> transactionTime a <= peak.
Proof.
  apply (peak_is_at_least_every_transaction HeapQueue.queue
           (new SimulationInput00) 5 8).
  - exact HeapQueue_laws.
  - exact (ready_new SimulationInput00 HeapQueue_laws).
  - split; vm_compute; lia.
  - repeat constructor; vm_compute; congruence.
  - vm_compute; congruence.
  - simpl; lia.
Defined.
